(** * serverstf: the poller and the websocket service

    A shallow embedding of [serverstf/poll.py], [serverstf/websocket.py]
    and [serverstf/__init__.py].

    Python objects become records, exceptions an inductive type, and
    code that raises or touches the cache runs in a small state and
    exception monad over an explicit world.  Loops that Python writes
    as [while True] take a fuel argument; running out of fuel is the
    third outcome [Running], which no [except] clause can catch. *)

From Stdlib Require Import ZArith List Ascii String Bool Lia.
From stdpp Require Import base option list gmap strings pretty.
Import ListNotations.

(** ** Python exceptions and outcomes *)

Module Py.

(** Exceptions that [poll.py] and [websocket.py] do not raise
    themselves: they come out of the interpreter or out of what the
    two modules call (the A2S client, maxminddb, voluptuous, json).
    All derive from [Exception]. *)
Inductive lib_exn : Type :=
| NoResponseError                      (* valve.source.a2s *)
| NotImplementedError
| BrokenMessageError                   (* valve.source.messages *)
| InvalidDatabaseError (msg : string)  (* maxminddb *)
| ValueError (msg : string)
| TypeError (msg : string)
| Invalid (msg : string)               (* voluptuous *)
| OtherError (name : string).

(** Everything the two modules raise, catch or let through. *)
Inductive exn : Type :=
| Lib (e : lib_exn)
| PollError (msg : string)             (* serverstf.poll *)
| EmptyQueueError                      (* serverstf.cache *)
| FatalError (msg : string)            (* serverstf *)
| MessageError (msg : string)          (* serverstf.websocket *)
| UnboundLocalError (name : string).

(** What a call into a library gives back. *)
Inductive result (A : Type) : Type :=
| Returns (a : A)
| Throws (e : lib_exn).
Arguments Returns {A} a.
Arguments Throws {A} e.

(** What running a piece of the program gives back. *)
Inductive outcome (A : Type) : Type :=
| Ok (a : A)
| Raise (e : exn)
| Running.
Arguments Ok {A} a.
Arguments Raise {A} e.
Arguments Running {A}.

(** [str(exc)] *)
Definition lib_exn_str (e : lib_exn) : string :=
  match e with
  | InvalidDatabaseError m | ValueError m | TypeError m | Invalid m => m
  | OtherError n => n
  | NoResponseError | NotImplementedError | BrokenMessageError => ""
  end.

Definition exn_str (e : exn) : string :=
  match e with
  | Lib e => lib_exn_str e
  | PollError m | FatalError m | MessageError m => m
  | UnboundLocalError n =>
      "local variable '" +:+ n +:+ "' referenced before assignment"
  | EmptyQueueError => ""
  end.

(** A state and exception monad over a state [St]. *)
Definition M (St A : Type) : Type := St -> outcome A * St.

Definition ret {St A} (a : A) : M St A := fun w => (Ok a, w).
Definition raise {St A} (e : exn) : M St A := fun w => (Raise e, w).
Definition out_of_fuel {St A} : M St A := fun w => (Running, w).

Definition bind {St A B} (m : M St A) (k : A -> M St B) : M St B :=
  fun w =>
    match m w with
    | (Ok a, w') => k a w'
    | (Raise e, w') => (Raise e, w')
    | (Running, w') => (Running, w')
    end.

Notation "x <- m ;; k" := (bind m (fun x => k))
  (at level 100, m at next level, right associativity).
Notation "m ;;; k" := (bind m (fun _ => k))
  (at level 100, right associativity).

Definition lift {St A} (r : result A) : M St A :=
  match r with
  | Returns a => ret a
  | Throws e => raise (Lib e)
  end.

(** [try: body / except ...: handler / else: orelse]: the handler
    chooses by exception class, [None] lets the exception through,
    and what [orelse] raises is not handled here. *)
Definition try_except_else {St A B} (body : M St A)
    (handler : exn -> option (M St B)) (orelse : A -> M St B) : M St B :=
  fun w =>
    match body w with
    | (Ok a, w') => orelse a w'
    | (Raise e, w') =>
        match handler e with
        | Some h => h w'
        | None => (Raise e, w')
        end
    | (Running, w') => (Running, w')
    end.

(** [try: body / finally: cleanup]: the cleanup runs whether [body]
    returned or raised, and what it raises replaces what [body] did. *)
Definition try_finally {St A} (body : M St A) (cleanup : M St unit) : M St A :=
  fun w =>
    match body w with
    | (Running, w') => (Running, w')
    | (o, w') =>
        match cleanup w' with
        | (Ok _, w'') => (o, w'')
        | (Raise e, w'') => (Raise e, w'')
        | (Running, w'') => (Running, w'')
        end
    end.

End Py.
Export Py.

(** ** serverstf/__init__.py *)

(** [class ExitStatus(enum.IntEnum)] *)
Inductive ExitStatus : Type := OK | FATAL_ERROR | UNEXPECTED_ERROR.

Definition ExitStatus_value (s : ExitStatus) : Z :=
  match s with
  | OK => 0
  | FATAL_ERROR => 1
  | UNEXPECTED_ERROR => 2
  end.

(** Modelled from the spec: [serverstf.main], the process boundary,
    is missing.  The spec gives a three-way classification of how a
    command ends: success, fatal setup error ([FatalError]), and
    unexpected error (anything else). *)
Definition main_exit_status {A} (o : outcome A) : option ExitStatus :=
  match o with
  | Ok _ => Some OK
  | Raise (FatalError _) => Some FATAL_ERROR
  | Raise _ => Some UNEXPECTED_ERROR
  | Running => None
  end.

(** ** The cache, as far as the poller needs it *)

Module cache.

(** Modelled from the spec: [serverstf.cache.Address] is
    [{ip: IP-address, port: uint16}], immutable, equal by value and
    written ["ip:port"]. *)
Record Address : Type := mkAddress { ip : string; port : Z }.

Global Instance Address_eq_dec : EqDecision Address.
Proof. solve_decision. Defined.

Global Instance Address_countable : Countable Address.
Proof.
  refine (inj_countable' (fun a => (ip a, port a))
                         (fun p => mkAddress p.1 p.2) _).
  by intros [].
Defined.

Definition Address_str (a : Address) : string :=
  ip a +:+ ":" +:+ pretty (port a).

(** A Python number: an [int], or a [float], which is a value
    [mantissa * 2 ^ exponent], an infinity or a NaN. *)
Inductive number : Type :=
| NumInt (n : Z)
| NumFloat (mantissa exponent : Z)
| NumInf (negative : bool)
| NumNaN.

(** [datetime.timedelta], normalised the way the constructor does. *)
Record timedelta : Type :=
  mkTimedelta { td_days : Z; td_seconds : Z; td_microseconds : Z }.

(** The time span of a whole number of microseconds: the days are
    kept within [-999999999, 999999999]. *)
Definition timedelta_of_microseconds (us : Z) : result timedelta :=
  let days := (us / 86400000000)%Z in
  if (999999999 <? Z.abs days)%Z then Throws (OtherError "OverflowError")
  else Returns (mkTimedelta days ((us / 1000000) mod 86400) (us mod 1000000)).

(** [n / d] rounded to the nearest integer, a tie to the even one. *)
Definition round_half_even (n d : Z) : Z :=
  let q := (n / d)%Z in
  let r := (n mod d)%Z in
  if (2 * r <? d)%Z then q
  else if (d <? 2 * r)%Z then (q + 1)%Z
  else if Z.even q then q else (q + 1)%Z.

(** A stand-in for [datetime.timedelta(seconds=x)], after its
    documentation: a float is rounded to the nearest microsecond,
    ties to even; an infinity is an [OverflowError], a NaN a
    [ValueError], and so is a span of more than 999999999 days an
    [OverflowError]. *)
Definition timedelta_new (x : number) : result timedelta :=
  match x with
  | NumInt n => timedelta_of_microseconds (n * 1000000)
  | NumFloat m e =>
      if (0 <=? e)%Z then timedelta_of_microseconds (m * 2 ^ e * 1000000)
      else timedelta_of_microseconds (round_half_even (m * 1000000) (2 ^ (- e)))
  | NumInf _ => Throws (OtherError "OverflowError")
  | NumNaN => Throws (ValueError "cannot convert float NaN to integer")
  end.

(** One row of [Players.scores]: [(name, score, duration)]. *)
Definition PlayerScore : Type := (string * Z * timedelta)%type.

(** Modelled from the spec: [serverstf.cache.Players]. *)
Record Players : Type := mkPlayers {
  current : Z;
  max_ : Z;
  bots : Z;
  scores : list PlayerScore;
}.

(** Modelled from the spec: [serverstf.cache.Status].  The latitude
    and longitude are carried through untouched. *)
Record Status : Type := mkStatus {
  address : Address;
  interest : option Z;
  name : string;
  map_ : string;
  application_id : Z;
  players : Players;
  country : option string;
  latitude : option Z;
  longitude : option Z;
  tags : gset string;
}.

(** A cache object is one connection to the store. *)
Record Cache : Type := mkCache { session : nat }.

Global Instance Cache_eq_dec : EqDecision Cache.
Proof. solve_decision. Defined.

End cache.

(** ** serverstf/poll.py *)

Module poll.
Import cache.

(** *** What the A2S client returns *)

(** The fields of the info response that [poll] reads. *)
Record Info : Type := mkInfo {
  player_count : Z;
  max_players : Z;
  bot_count : Z;
  server_name : string;
  map : string;
  app_id : Z;
}.

(** One entry of [players["players"]]; the duration is a number of
    seconds, a [float] as the A2S client decodes it. *)
Record PlayerEntry : Type := mkPlayerEntry {
  entry_name : string;
  entry_score : Z;
  entry_duration : number;
}.

Record PlayersResponse : Type :=
  mkPlayersResponse { response_players : list PlayerEntry }.

Record Rules : Type := mkRules { rules : list (string * string) }.

(** What [geoip.city] returns, as far as [poll] reads it. *)
Record City : Type := mkCity {
  iso_code : option string;
  city_latitude : option Z;
  city_longitude : option Z;
}.

Inductive a2s_request : Type := GetInfo | GetPlayers | GetRules.

(** [valve.source.a2s.ServerQuerier((host, port), timeout=...)] *)
Record ServerQuerier : Type :=
  mkServerQuerier { host : string * Z; timeout : Z }.

(** *** The world the poller runs in *)

Inductive event : Type :=
| EvQuery (q : ServerQuerier) (rq : a2s_request)
| EvTagger
| EvGeoipCity (ip : string)
| EvGeoipOpen (path : string)
| EvGeoipClose
| EvConnect (c : Cache)
| EvDisconnect (c : Cache)
| EvPop (c : Cache) (a : Address)
| EvEmptyQueue (c : Cache)
| EvAllIterator (c : Cache)
| EvSet (c : Cache) (s : Status)
| EvLogError (a : Address) (msg : string).

(** The store behind every cache connection, the trace of what the
    poller did, and two counters: the next free connection number and
    the number of pops attempted so far. *)
Record World : Type := mkWorld {
  statuses : gmap Address Status;
  interest_queue : list Address;
  pops : nat;
  next_session : nat;
  trace : list event;
}.

(** The collaborators [poll.py] calls into.  [timedelta_seconds x]
    is [datetime.timedelta(seconds=x)], which raises on a number it
    cannot hold.  [producer n] is what the external producer has
    pushed onto the interest queue by the time of pop number [n]. *)
Record Env : Type := mkEnv {
  a2s_info : string * Z -> result Info;
  a2s_players : string * Z -> result PlayersResponse;
  a2s_rules : string * Z -> result Rules;
  tagger_evaluate : Info -> PlayersResponse -> Rules -> result (gset string);
  geoip_city : string -> result City;
  geoip_open : string -> result unit;
  timedelta_seconds : number -> result timedelta;
  producer : nat -> list Address;
}.

(** *** Effects of the poller *)

Definition emit (e : event) : M World unit :=
  fun w => (Ok tt, mkWorld (statuses w) (interest_queue w) (pops w)
                           (next_session w) (trace w ++ [e])).

(** *** The A2S client *)

Definition query_call {A} (q : ServerQuerier) (rq : a2s_request)
    (answer : string * Z -> result A) : M World A :=
  emit (EvQuery q rq) ;;; lift (answer (host q)).

Definition get_info env q := query_call q GetInfo (a2s_info env).
Definition get_players env q := query_call q GetPlayers (a2s_players env).
Definition get_rules env q := query_call q GetRules (a2s_rules env).

(** *** [_query_server] *)

Definition _query_server (env : Env) (address : Address)
    : M World (Info * PlayersResponse * Rules) :=
  let query := mkServerQuerier (ip address, port address) 5 in
  try_except_else
    (info <- get_info env query ;;
     players <- get_players env query ;;
     rules <- get_rules env query ;;
     ret (info, players, rules))
    (fun exc =>
       match exc with
       | Lib NoResponseError =>
           Some (raise (PollError ("Timed out waiting for response from "
                                   +:+ Address_str address)))
       | Lib NotImplementedError =>
           Some (raise (PollError ("Compressed fragments; couldn't poll "
                                   +:+ Address_str address)))
       | Lib BrokenMessageError =>
           Some (raise (PollError ("Seemingly broken response from "
                                   +:+ Address_str address)))
       | _ => None
       end)
    ret.

(** *** [poll] *)

(** The loop over [players["players"]]: one [scores.append] per entry
    whose name is truthy, that is, not the empty string.  The time
    span is built for those entries only, and what [timedelta] raises
    ends the loop. *)
Fixpoint scores_loop (env : Env) (entries : list PlayerEntry)
    (scores : list PlayerScore) : result (list PlayerScore) :=
  match entries with
  | [] => Returns scores
  | entry :: rest =>
      if String.eqb (entry_name entry) "" then scores_loop env rest scores
      else
        match timedelta_seconds env (entry_duration entry) with
        | Throws e => Throws e
        | Returns duration =>
            scores_loop env rest
              (scores ++ [(entry_name entry, entry_score entry, duration)])
        end
  end.

Definition poll (env : Env) (address : Address) : M World Status :=
  answers <- _query_server env address ;;
  let '(info, players, rules) := answers in
  tags <- (emit EvTagger ;;; lift (tagger_evaluate env info players rules)) ;;
  location <- (emit (EvGeoipCity (ip address)) ;;;
               lift (geoip_city env (ip address))) ;;
  scores <- lift (scores_loop env (response_players players) []) ;;
  let players_status :=
    mkPlayers (player_count info) (max_players info) (bot_count info) scores in
  ret (mkStatus address None (server_name info) (map info) (app_id info)
                players_status (iso_code location) (city_latitude location)
                (city_longitude location) tags).

(** *** The cache operations the poller calls *)

(** Modelled from the spec: [Cache.interesting_context] is a scoped
    pop of one address: it takes the head of the interest queue and
    removes it, and fails with the empty-queue signal when no entry
    remains.  What the producer has pushed since the pop before joins
    the tail of the queue before the head is taken. *)
Definition interesting_context (env : Env) (c : Cache) : M World Address :=
  fun w =>
    match interest_queue w ++ producer env (pops w) with
    | [] =>
        (Raise EmptyQueueError,
         mkWorld (statuses w) [] (S (pops w)) (next_session w)
                 (trace w ++ [EvEmptyQueue c]))
    | a :: q =>
        (Ok a,
         mkWorld (statuses w) q (S (pops w)) (next_session w)
                 (trace w ++ [EvPop c a]))
    end.

(** Modelled from the spec: [Cache.set] stores the status under its
    address; the write is atomic and visible to later reads. *)
Definition cache_set (c : Cache) (s : Status) : M World unit :=
  fun w =>
    (Ok tt,
     mkWorld (<[address s := s]> (statuses w)) (interest_queue w) (pops w)
             (next_session w) (trace w ++ [EvSet c s])).

(** Modelled from the spec: [Cache.all_iterator] is the finite
    sequence of every address currently cached. *)
Definition all_addresses (w : World) : list Address :=
  (map_to_list (statuses w)).*1.

(** Modelled from the spec: [Cache.connect] opens a connection of its
    own on every call. *)
Definition cache_connect : M World Cache :=
  fun w =>
    let c := mkCache (next_session w) in
    (Ok c,
     mkWorld (statuses w) (interest_queue w) (pops w) (S (next_session w))
             (trace w ++ [EvConnect c])).

(** [with Cache.connect(...) as c: body] *)
Definition with_connect {A} (body : Cache -> M World A) : M World A :=
  c <- cache_connect ;;
  try_finally (body c) (emit (EvDisconnect c)).

(** *** [_interest_queue_iterator] and the [for] loop *)

(** A generator object between two [next] calls.  The generator of
    [_interest_queue_iterator] is suspended at its one [yield], inside
    [while True], so all it remembers is the cache. *)
Inductive address_iterator : Type :=
| InterestQueue (cache : Cache)
| AllIterator (remaining : list Address).

Definition _interest_queue_iterator (cache : Cache) : address_iterator :=
  InterestQueue cache.

Definition all_iterator (c : Cache) : M World address_iterator :=
  fun w => (emit (EvAllIterator c) ;;; ret (AllIterator (all_addresses w))) w.

(** [next(it)]: one turn of the generator's loop.  [None] is
    [StopIteration]. *)
Definition next (env : Env) (it : address_iterator)
    : M World (option (Address * address_iterator)) :=
  match it with
  | InterestQueue cache =>
      try_except_else (interesting_context env cache)
        (fun exc =>
           match exc with
           | EmptyQueueError => Some (ret None)
           | _ => None
           end)
        (fun address => ret (Some (address, InterestQueue cache)))
  | AllIterator [] => ret None
  | AllIterator (a :: rest) => ret (Some (a, AllIterator rest))
  end.

(** [for address in it: body address] *)
Fixpoint for_each (fuel : nat) (env : Env) (it : address_iterator)
    (body : Address -> M World unit) : M World unit :=
  match fuel with
  | O => out_of_fuel
  | S fuel' =>
      step <- next env it ;;
      match step with
      | None => ret tt
      | Some (a, it') => body a ;;; for_each fuel' env it' body
      end
  end.

(** *** [_watch] *)

(** The body of the [for] loop: [try / except PollError / else]. *)
Definition watch_body (env : Env) (w_cache : Cache) (address : Address)
    : M World unit :=
  try_except_else (poll env address)
    (fun exc =>
       match exc with
       | PollError msg => Some (emit (EvLogError address msg))
       | _ => None
       end)
    (fun status => cache_set w_cache status).

(** One turn of [while True].  The tagger that [_watch] builds before
    the loop with [Tagger.scan] is the [tagger_evaluate] of [env], and
    its [geoip] argument the [geoip_city] of [env]. *)
Definition watch_pass (fuel : nat) (env : Env) (r_cache w_cache : Cache)
    (all_ : bool) : M World unit :=
  addresses <- (if all_ then all_iterator r_cache
                else ret (_interest_queue_iterator r_cache)) ;;
  for_each fuel env addresses (watch_body env w_cache).

Fixpoint _watch (fuel : nat) (env : Env) (r_cache w_cache : Cache)
    (all_ : bool) : M World unit :=
  match fuel with
  | O => out_of_fuel
  | S fuel' =>
      watch_pass fuel' env r_cache w_cache all_ ;;;
      _watch fuel' env r_cache w_cache all_
  end.

(** *** [_poller_main] *)

Record Args : Type := mkArgs {
  args_geoip : string;
  args_redis : string;
  args_all : bool;
}.

(** [geoip2.database.Reader] *)
Record Reader : Type := mkReader { reader_path : string }.

Definition Reader_open (env : Env) (path : string) : M World Reader :=
  emit (EvGeoipOpen path) ;;;
  lift (geoip_open env path) ;;;
  ret (mkReader path).

(** [geoip.close()], where [geoip] is a local of [_poller_main]: the
    name is bound only once [Reader(...)] has returned. *)
Definition close_local_geoip (geoip : option Reader) : M World unit :=
  match geoip with
  | Some _ => emit EvGeoipClose
  | None => raise (UnboundLocalError "geoip")
  end.

(** The [try] statement of [_poller_main].  Its body, the one
    assignment [geoip = Reader(...)], is run first, so that the
    [finally] clause knows whether the local [geoip] got bound; the
    [except], [else] and [finally] clauses then see that outcome. *)
Definition _poller_main (fuel : nat) (env : Env) (args : Args) : M World unit :=
  fun w =>
    let '(opened, w1) := Reader_open env (args_geoip args) w in
    let geoip := match opened with Ok r => Some r | _ => None end in
    try_finally
      (try_except_else (fun _ => (opened, w1))
         (fun exc =>
            match exc with
            | Lib (InvalidDatabaseError msg) => Some (raise (FatalError msg))
            | _ => None
            end)
         (fun _ =>
            with_connect (fun r_cache =>
              with_connect (fun w_cache =>
                _watch fuel env r_cache w_cache (args_all args)))))
      (close_local_geoip geoip)
      w.

(** *** Words for the statements about [poll] *)

Definition querier_for (a : Address) : ServerQuerier :=
  mkServerQuerier (ip a, port a) 5.

(** The world after some more events. *)
Definition add_trace (w : World) (evs : list event) : World :=
  mkWorld (statuses w) (interest_queue w) (pops w) (next_session w)
          (trace w ++ evs).

(** The first of the three sub-queries that fails, in the order they
    are issued, and what it fails with. *)
Definition sub_query_failure (env : Env) (a : Address)
    : option (a2s_request * lib_exn) :=
  match a2s_info env (ip a, port a) with
  | Throws e => Some (GetInfo, e)
  | Returns _ =>
      match a2s_players env (ip a, port a) with
      | Throws e => Some (GetPlayers, e)
      | Returns _ =>
          match a2s_rules env (ip a, port a) with
          | Throws e => Some (GetRules, e)
          | Returns _ => None
          end
      end
  end.

(** The three ways a sub-query fails that [_query_server] turns into
    [PollError]. *)
Inductive poll_failure : Type := Unreachable | Unsupported | BrokenResponse.

Definition poll_failure_of (e : lib_exn) : option poll_failure :=
  match e with
  | NoResponseError => Some Unreachable
  | NotImplementedError => Some Unsupported
  | BrokenMessageError => Some BrokenResponse
  | _ => None
  end.

Definition poll_failure_message (k : poll_failure) (a : Address) : string :=
  match k with
  | Unreachable => "Timed out waiting for response from " +:+ Address_str a
  | Unsupported => "Compressed fragments; couldn't poll " +:+ Address_str a
  | BrokenResponse => "Seemingly broken response from " +:+ Address_str a
  end.

(** What [_query_server] raises when a sub-query throws [e]. *)
Definition query_server_raises (e : lib_exn) (a : Address) : exn :=
  match poll_failure_of e with
  | Some k => PollError (poll_failure_message k a)
  | None => Lib e
  end.

(** The events of the sub-queries up to and including [rq]. *)
Definition queries_through (a : Address) (rq : a2s_request) : list event :=
  match rq with
  | GetInfo => [EvQuery (querier_for a) GetInfo]
  | GetPlayers =>
      [EvQuery (querier_for a) GetInfo; EvQuery (querier_for a) GetPlayers]
  | GetRules =>
      [EvQuery (querier_for a) GetInfo; EvQuery (querier_for a) GetPlayers;
       EvQuery (querier_for a) GetRules]
  end.

(** The status [poll] builds from what its collaborators returned
    and the scores of its loop. *)
Definition assembled (a : Address) (info : Info) (scores : list PlayerScore)
    (location : City) (tags : gset string) : Status :=
  mkStatus a None (server_name info) (map info) (app_id info)
           (mkPlayers (player_count info) (max_players info) (bot_count info)
                      scores)
           (iso_code location) (city_latitude location)
           (city_longitude location) tags.

(** The events that are sub-queries. *)
Definition is_query (ev : event) : bool :=
  match ev with
  | EvQuery _ _ => true
  | _ => false
  end.

(** The test [poll] applies to an entry, the entries that pass it,
    and the row it appends for one of them once [timedelta] has
    returned the span. *)
Definition has_name (e : PlayerEntry) : bool :=
  negb (String.eqb (entry_name e) "").

Definition named (entries : list PlayerEntry) : list PlayerEntry :=
  List.filter has_name entries.

Definition score_row (e : PlayerEntry) (duration : timedelta) : PlayerScore :=
  (entry_name e, entry_score e, duration).

(** The rows are those of the entries, one each and in their order,
    each with the span [timedelta] returns for the entry's duration. *)
Definition rows_of (env : Env) (entries : list PlayerEntry)
    (rows : list PlayerScore) : Prop :=
  Forall2 (fun e row =>
             exists duration,
               timedelta_seconds env (entry_duration e) = Returns duration
               /\ row = score_row e duration)
          entries rows.

(** An entry whose duration [timedelta] accepts. *)
Definition accepted (env : Env) (e : PlayerEntry) : Prop :=
  exists duration, timedelta_seconds env (entry_duration e) = Returns duration.

(** The first entry with a name whose duration [timedelta] refuses,
    and what it raises. *)
Fixpoint first_refused (env : Env) (entries : list PlayerEntry)
    : option (PlayerEntry * lib_exn) :=
  match entries with
  | [] => None
  | e :: rest =>
      if has_name e then
        match timedelta_seconds env (entry_duration e) with
        | Throws exc => Some (e, exc)
        | Returns _ => first_refused env rest
        end
      else first_refused env rest
  end.

(** What the specification says of the assembly: every triple of
    answers gives a status, with a row for each entry that has a name
    and the three counts of the info answer. *)
Definition assembles_every_triple (env : Env) : Prop :=
  forall a w info presp rules tgs location,
    a2s_info env (ip a, port a) = Returns info ->
    a2s_players env (ip a, port a) = Returns presp ->
    a2s_rules env (ip a, port a) = Returns rules ->
    tagger_evaluate env info presp rules = Returns tgs ->
    geoip_city env (ip a) = Returns location ->
    exists st,
      (poll env a w).1 = Ok st
      /\ rows_of env (named (response_players presp)) (scores (players st))
      /\ current (players st) = player_count info
      /\ max_ (players st) = max_players info
      /\ bots (players st) = bot_count info.

(** *** Words for the statements about the loop *)

(** The world [w'] is [w] after more events, all of them in [P]. *)
Definition extends (P : event -> Prop) (w w' : World) : Prop :=
  exists evs, trace w' = trace w ++ evs /\ Forall P evs.

(** The events of one poll. *)
Definition poll_event (ev : event) : Prop :=
  match ev with
  | EvQuery _ _ | EvTagger | EvGeoipCity _ => True
  | _ => False
  end.

(** [PollError] is the only thing polls fail with: the transport
    fails in its three ways only, the tagger and the GeoIP lookup
    answer, and [timedelta] accepts the durations. *)
Definition polls_settle (env : Env) : Prop :=
  forall a w,
    (exists st, (poll env a w).1 = Ok st)
    \/ (exists msg, (poll env a w).1 = Raise (PollError msg)).

(** Events that do not touch the interest queue. *)
Definition is_pop_event (ev : event) : bool :=
  match ev with
  | EvPop _ _ | EvEmptyQueue _ => true
  | _ => false
  end.

Definition pop_events (evs : list event) : list event :=
  List.filter is_pop_event evs.

(** A loop body that returns and leaves the interest queue alone. *)
Definition quiet_body (body : Address -> M World unit) : Prop :=
  forall a w, exists w' evs,
    body a w = (Ok tt, w')
    /\ interest_queue w' = interest_queue w
    /\ pops w' = pops w
    /\ trace w' = trace w ++ evs
    /\ pop_events evs = [].

(** A drain as the specification tells it, for a queue that holds
    [q]: for each queued address in turn, the pop that yields it, then
    the body on that address; behind the last, the pop that finds the
    queue empty. *)
Definition pop_yields (r : Cache) (a : Address) (rest : list Address)
    : M World unit :=
  fun w =>
    (Ok tt,
     mkWorld (statuses w) rest (S (pops w)) (next_session w)
             (trace w ++ [EvPop r a])).

Definition pop_finds_empty (r : Cache) : M World unit :=
  fun w =>
    (Ok tt,
     mkWorld (statuses w) [] (S (pops w)) (next_session w)
             (trace w ++ [EvEmptyQueue r])).

Fixpoint drain (r : Cache) (body : Address -> M World unit)
    (q : list Address) : M World unit :=
  match q with
  | [] => pop_finds_empty r
  | a :: rest => pop_yields r a rest ;;; body a ;;; drain r body rest
  end.

(** The producer pushes nothing at the [n] pops after pop [from]. *)
Definition producer_silent (env : Env) (from n : nat) : Prop :=
  forall k, 1 <= k <= n -> producer env (from + k) = [].

(** Reads of addresses go through [r], writes of statuses through
    [wc]. *)
Definition uses_sessions (r wc : Cache) (ev : event) : Prop :=
  match ev with
  | EvPop c _ | EvEmptyQueue c | EvAllIterator c => c = r
  | EvSet c _ => c = wc
  | _ => True
  end.

Definition iterator_reads (r : Cache) (it : address_iterator) : Prop :=
  match it with
  | InterestQueue c => c = r
  | AllIterator _ => True
  end.

(** *** Worlds to run the poller in *)

(** A server where Bob has been playing for a minute and a half. *)
Definition bob_info : Info := mkInfo 1 24 0 "A server" "cp_well" 440.
Definition bob_players : PlayersResponse :=
  mkPlayersResponse [mkPlayerEntry "Bob" 5 (NumFloat 90 0)].
Definition bob_env : Env :=
  mkEnv (fun _ => Returns bob_info)
        (fun _ => Returns bob_players)
        (fun _ => Returns (mkRules []))
        (fun _ _ _ => Returns ∅)
        (fun _ => Returns (mkCity (Some "GB") None None))
        (fun _ => Returns tt)
        timedelta_new
        (fun _ => []).
Definition bob_address : Address := mkAddress "192.0.2.7" 27015.
Definition empty_world : World := mkWorld ∅ [] 0 0 [].

(** A server that never answers, and a GeoIP database that is not
    one. *)
Definition down_env : Env :=
  mkEnv (fun _ => Throws NoResponseError)
        (fun _ => Returns bob_players)
        (fun _ => Returns (mkRules []))
        (fun _ _ _ => Returns ∅)
        (fun _ => Returns (mkCity (Some "GB") None None))
        (fun _ => Returns tt)
        timedelta_new
        (fun _ => []).

Definition no_geoip_env : Env :=
  mkEnv (fun _ => Returns bob_info)
        (fun _ => Returns bob_players)
        (fun _ => Returns (mkRules []))
        (fun _ _ _ => Returns ∅)
        (fun _ => Returns (mkCity (Some "GB") None None))
        (fun _ => Throws (InvalidDatabaseError "not a MaxMind DB file"))
        timedelta_new
        (fun _ => []).

Definition other_address : Address := mkAddress "198.51.100.3" 27016.

(** A server where Eve reports having played for [2 ^ 100] seconds,
    a duration a single-precision float holds. *)
Definition eve_players : PlayersResponse :=
  mkPlayersResponse [mkPlayerEntry "Eve" 0 (NumFloat 1 100)].
Definition eve_env : Env :=
  mkEnv (fun _ => Returns bob_info)
        (fun _ => Returns eve_players)
        (fun _ => Returns (mkRules []))
        (fun _ _ _ => Returns ∅)
        (fun _ => Returns (mkCity (Some "GB") None None))
        (fun _ => Returns tt)
        timedelta_new
        (fun _ => []).

End poll.

(** ** serverstf/websocket.py *)

Module websocket.
Import cache.

(** *** JSON values as Python objects *)

(** What [json.loads] returns.  A [dict] keeps its keys in insertion
    order, so it is a list of pairs. *)
#[warnings="-register-all"]
Inductive pyval : Type :=
| PNone
| PBool (b : bool)
| PInt (n : Z)
| PFloat (literal : string)
| PStr (s : string)
| PList (items : list pyval)
| PDict (items : list (string * pyval)).

Fixpoint dict_get (d : list (string * pyval)) (k : string) : option pyval :=
  match d with
  | [] => None
  | (k', v) :: rest => if String.eqb k k' then Some v else dict_get rest k
  end.

(** [d[k] = v]: an old key keeps its place, a new one goes last. *)
Fixpoint dict_set (d : list (string * pyval)) (k : string) (v : pyval)
    : list (string * pyval) :=
  match d with
  | [] => [(k, v)]
  | (k', v') :: rest =>
      if String.eqb k k' then (k, v) :: rest else (k', v') :: dict_set rest k v
  end.

Definition dict_values (d : list (string * pyval)) : list pyval :=
  List.map snd d.

(** *** The part of voluptuous the module uses *)

Definition validator : Type := pyval -> result pyval.

(** The schema [str] *)
Definition v_str : validator :=
  fun v => match v with
           | PStr _ => Returns v
           | _ => Throws (Invalid "expected str")
           end.

(** The schema [int]; [bool] is a subclass of [int]. *)
Definition v_int : validator :=
  fun v => match v with
           | PInt _ | PBool _ => Returns v
           | _ => Throws (Invalid "expected int")
           end.

(** The schema [lambda x: x] *)
Definition v_any : validator := fun v => Returns v.

Fixpoint schema_lookup (schema : list (string * validator)) (k : string)
    : option validator :=
  match schema with
  | [] => None
  | (k', check) :: rest =>
      if String.eqb k k' then Some check else schema_lookup rest k
  end.

Definition at_key (msg k : string) : string :=
  msg +:+ " @ data['" +:+ k +:+ "']".

(** The items of the data are checked in the order the dict gives
    them and copied into a new dict; a key the schema does not name
    is refused.  The first error is the one reported. *)
Fixpoint validate_items (schema : list (string * validator))
    (items out : list (string * pyval)) : result (list (string * pyval)) :=
  match items with
  | [] => Returns out
  | (k, v) :: rest =>
      match schema_lookup schema k with
      | None => Throws (Invalid (at_key "extra keys not allowed" k))
      | Some check =>
          match check v with
          | Returns v' => validate_items schema rest (dict_set out k v')
          | Throws (Invalid m) =>
              Throws (Invalid (at_key (m +:+ " for dictionary value") k))
          | Throws e => Throws e
          end
      end
  end.

Fixpoint first_missing (required : list string) (items : list (string * pyval))
    : option string :=
  match required with
  | [] => None
  | k :: rest =>
      match dict_get items k with
      | None => Some k
      | Some _ => first_missing rest items
      end
  end.

(** [voluptuous.Schema({Required(k1): v1, ...})(data)] *)
Definition Schema_dict (schema : list (string * validator)) (data : pyval)
    : result (list (string * pyval)) :=
  match data with
  | PDict items =>
      match validate_items schema items [] with
      | Throws e => Throws e
      | Returns out =>
          match first_missing (List.map fst schema) items with
          | Some k => Throws (Invalid (at_key "required key not provided" k))
          | None => Returns out
          end
      end
  | _ => Throws (Invalid "expected a dictionary")
  end.

(** [voluptuous.Schema(f)(data)] for a function [f]: a [ValueError]
    becomes [Invalid], an [Invalid] and anything else pass. *)
Definition Schema_callable {A} (f : pyval -> result A) (data : pyval)
    : result A :=
  match f data with
  | Throws (ValueError _) => Throws (Invalid "not a valid value")
  | r => r
  end.

(** *** What the module calls into *)

(** [json.loads], [json.dumps] and the constructor of
    [serverstf.cache.Address]. *)
Record Libs : Type := mkLibs {
  json_loads : string -> result pyval;
  json_dumps : pyval -> string;
  Address_new : pyval -> pyval -> result Address;
}.

(** *** [address] *)

Definition address_schema : list (string * validator) :=
  [("ip", v_str); ("port", v_int)].

(** The values of the dict that the schema returns, in the order the
    dict gives them, are the positional arguments of [Address]. *)
Definition address (libs : Libs) (value : pyval) : result Address :=
  match Schema_dict address_schema value with
  | Throws e => Throws e
  | Returns validated =>
      match dict_values validated with
      | [x; y] => Address_new libs x y
      | _ => Throws (TypeError "__init__() takes 3 positional arguments")
      end
  end.

(** *** [Client] *)

Record WebSocket : Type := mkWebSocket { connection : nat }.

Record Client : Type := mkClient {
  _websocket : WebSocket;
  _cache : Cache;
  _subscriptions : list Address;
  _send_queue : list string;
}.

(** [Client.__init__] *)
Definition Client_init (websocket : WebSocket) (cache : Cache) : Client :=
  mkClient websocket cache [] [].

Inductive log_entry : Type :=
| LogNewSubscription (a : Address)
| LogBadMessage (msg : string)
| LogHandlingError (received : string) (e : exn)
| LogSocketFinished
| LogWrongPath (path : string)
| LogConnectionClosed
| LogTaskError (e : exn).

Inductive connection_state : Type := OPEN | CLOSING | CLOSED.

(** One connection: its client object, the frames written to the
    peer so far, the log, and where the connection stands. *)
Record Session : Type := mkSession {
  client : Client;
  sent : list string;
  log : list log_entry;
  state : connection_state;
}.

Definition new_session (c : Client) : Session := mkSession c [] [] OPEN.

Definition set_send_queue (q : list string) (s : Session) : Session :=
  mkSession (mkClient (_websocket (client s)) (_cache (client s))
                      (_subscriptions (client s)) q)
            (sent s) (log s) (state s).

Definition logging (entry : log_entry) : M Session unit :=
  fun s => (Ok tt, mkSession (client s) (sent s) (log s ++ [entry]) (state s)).

(** [self._send_queue.put(item)]: the queue has no bound, so the put
    never waits. *)
Definition queue_put (item : string) : M Session unit :=
  fun s => (Ok tt, set_send_queue (_send_queue (client s) ++ [item]) s).

(** [self._websocket.send(message)] *)
Definition websocket_send (message : string) : M Session unit :=
  fun s =>
    (Ok tt, mkSession (client s) (sent s ++ [message]) (log s) (state s)).

Definition envelope (type_ : string) (entity : pyval) : pyval :=
  PDict [("type", PStr type_); ("entity", entity)].

(** [Client.send] *)
Definition send (libs : Libs) (type_ : string) (entity : pyval)
    : M Session unit :=
  let message := envelope type_ entity in
  queue_put (json_dumps libs message).

(** [validate(schema)(function)]: the wrapper *)
Definition validate {A} (schema : pyval -> result A)
    (function : A -> M Session unit) : pyval -> M Session unit :=
  fun entity =>
    validated_entity <-
      try_except_else (lift (Schema_callable schema entity))
        (fun exc =>
           match exc with
           | Lib (Invalid m) => Some (raise (MessageError ("Entity: " +:+ m)))
           | _ => None
           end)
        ret ;;
    function validated_entity.

(** [Client._handle_subscribe] *)
Definition _handle_subscribe (libs : Libs) : pyval -> M Session unit :=
  validate (address libs) (fun address => logging (LogNewSubscription address)).

(** [getattr(self, name, None)], kept to the names that can be a
    handler: the class has one method whose name starts with
    [_handle_]. *)
Definition getattr_handler (libs : Libs) (name : string)
    : option (pyval -> M Session unit) :=
  if String.eqb name "_handle_subscribe" then Some (_handle_subscribe libs)
  else None.

Definition envelope_schema : list (string * validator) :=
  [("type", v_str); ("entity", v_any)].

(** [message[key]] *)
Definition subscript (message : pyval) (key : string) : M Session pyval :=
  match message with
  | PDict items =>
      match dict_get items key with
      | Some v => ret v
      | None => raise (Lib (OtherError "KeyError"))
      end
  | _ => raise (Lib (TypeError "object is not subscriptable"))
  end.

(** [Client._dispatch] *)
Definition _dispatch (libs : Libs) (raw_message : string) : M Session unit :=
  message <-
    try_except_else (lift (json_loads libs raw_message))
      (fun exc =>
         match exc with
         | Lib (ValueError m) => Some (raise (MessageError ("JSON: " +:+ m)))
         | _ => None
         end)
      ret ;;
  try_except_else (lift (Schema_dict envelope_schema message))
    (fun exc =>
       match exc with
       | Lib (Invalid m) => Some (raise (MessageError ("Envelope: " +:+ m)))
       | _ => None
       end)
    (fun _ => ret tt) ;;;
  type_ <- subscript message "type" ;;
  match type_ with
  | PStr t =>
      match getattr_handler libs ("_handle_" +:+ t) with
      | None => raise (MessageError ("Unknown message type: " +:+ t))
      | Some handler =>
          entity <- subscript message "entity" ;;
          handler entity
      end
  | _ => raise (Lib (TypeError "must be str"))
  end.

(** One turn of the loop of [Client._read], given what [recv] has
    returned; the answer says whether the loop goes on. *)
Definition read_turn (libs : Libs) (received : option string)
    : M Session bool :=
  match received with
  | None => ret false
  | Some raw =>
      try_except_else (_dispatch libs raw)
        (fun exc =>
           match exc with
           | MessageError msg =>
               Some (logging (LogBadMessage msg) ;;;
                     send libs "error" (PStr (exn_str exc)))
           | _ => Some (logging (LogHandlingError raw exc))
           end)
        ret ;;;
      ret true
  end.

(** [Client._read], over what [recv] returns one call after the
    other; at the end of the list [recv] has not returned yet. *)
Fixpoint _read (libs : Libs) (inbound : list (option string))
    : M Session unit :=
  match inbound with
  | [] => out_of_fuel
  | received :: rest =>
      go_on <- read_turn libs received ;;
      if go_on : bool then _read libs rest else ret tt
  end.

(** One turn of the loop of [Client._write]; [get] waits while the
    queue is empty. *)
Definition write_turn : M Session unit :=
  fun s =>
    match _send_queue (client s) with
    | [] => (Running, s)
    | message :: q => websocket_send message (set_send_queue q s)
    end.

(** [Client._write] *)
Fixpoint _write (fuel : nat) : M Session unit :=
  match fuel with
  | O => out_of_fuel
  | S fuel' => write_turn ;;; _write fuel'
  end.

(** What the event loop does next: hand the reader what [recv]
    returned, or let the writer run. *)
Inductive tick : Type :=
| Received (r : option string)
| Flush.

(** The rest of [Client.process] once a task is done: the other task
    is cancelled and the coroutine returns. *)
Definition finish : M Session unit :=
  fun s =>
    (Ok tt, mkSession (client s) (sent s) (log s ++ [LogSocketFinished]) CLOSED).

(** [Client.process]: both tasks run until the first one is done. *)
Fixpoint process (libs : Libs) (ticks : list tick) : M Session unit :=
  match ticks with
  | [] => out_of_fuel
  | Received r :: rest =>
      fun s =>
        match read_turn libs r s with
        | (Ok true, s') => process libs rest s'
        | (_, s') => finish s'
        end
  | Flush :: rest =>
      fun s =>
        match write_turn s with
        | (Ok _, s') => process libs rest s'
        | (Running, _) => process libs rest s
        | (Raise _, s') => finish s'
        end
  end.

(** *** [Service] *)

Definition PATH : string := "/".

Record Service : Type := mkService { service_cache : Cache }.

(** What became of one accepted connection: dropped with nothing
    built, or handled by the one client built for it. *)
Inductive served : Type :=
| Dropped (entries : list log_entry)
| Handled (built : Client) (o : outcome unit) (final : Session).

(** [Service.__call__] *)
Definition Service_call (libs : Libs) (self : Service)
    (websocket : WebSocket) (path : string) (ticks : list tick) : served :=
  if negb (String.eqb path PATH) then Dropped [LogWrongPath path]
  else
    let client := Client_init websocket (service_cache self) in
    let '(o, s) :=
      (process libs ticks ;;; logging LogConnectionClosed) (new_session client)
    in
    Handled client o s.

(** *** Words for the statements about a session *)

(** The session after one more log entry, and after one more queued
    message. *)
Definition logged (entry : log_entry) (s : Session) : Session :=
  mkSession (client s) (sent s) (log s ++ [entry]) (state s).

Definition queued (item : string) (s : Session) : Session :=
  set_send_queue (_send_queue (client s) ++ [item]) s.

(** The frame that carries an error back to the peer. *)
Definition error_frame (libs : Libs) (description : string) : string :=
  json_dumps libs (envelope "error" (PStr description)).

(** The inbound frames [_dispatch] refuses with [MessageError], and
    the description each gets: not JSON, an envelope the schema
    refuses, a type without a handler, an entity the handler's schema
    refuses. *)
Inductive rejected (libs : Libs) (raw : string) : string -> Prop :=
| NotJSON m :
    json_loads libs raw = Throws (ValueError m) ->
    rejected libs raw ("JSON: " +:+ m)
| BadEnvelope message m :
    json_loads libs raw = Returns message ->
    Schema_dict envelope_schema message = Throws (Invalid m) ->
    rejected libs raw ("Envelope: " +:+ m)
| NoHandler items out t :
    json_loads libs raw = Returns (PDict items) ->
    Schema_dict envelope_schema (PDict items) = Returns out ->
    dict_get items "type" = Some (PStr t) ->
    t <> "subscribe" ->
    rejected libs raw ("Unknown message type: " +:+ t)
| BadEntity items out entity m :
    json_loads libs raw = Returns (PDict items) ->
    Schema_dict envelope_schema (PDict items) = Returns out ->
    dict_get items "type" = Some (PStr "subscribe") ->
    dict_get items "entity" = Some entity ->
    Schema_callable (address libs) entity = Throws (Invalid m) ->
    rejected libs raw ("Entity: " +:+ m).


(** The teardown the specification describes: an exception out of
    [_dispatch] that is not [MessageError] ends [process] with the
    connection [CLOSED]. *)
Definition torn_down_on_unexpected (libs : Libs) (raw : string) (s : Session)
    : Prop :=
  forall e s1,
    _dispatch libs raw s = (Raise e, s1) ->
    (forall m, e <> MessageError m) ->
    forall ticks,
      (process libs (Received (Some raw) :: ticks) s).1 = Ok tt
      /\ state (process libs (Received (Some raw) :: ticks) s).2 = CLOSED.

(** What happens to a session: somebody calls [send], or the writer
    gets a turn. *)
Inductive action : Type :=
| CallSend (type_ : string) (entity : pyval)
| WriterTurn.

Fixpoint run (libs : Libs) (actions : list action) (s : Session) : Session :=
  match actions with
  | [] => s
  | CallSend type_ entity :: rest => run libs rest (send libs type_ entity s).2
  | WriterTurn :: rest =>
      match write_turn s with
      | (Ok _, s') => run libs rest s'
      | _ => run libs rest s
      end
  end.

(** The frames of the [send] calls among the actions, in call order. *)
Fixpoint frames_sent (libs : Libs) (actions : list action) : list string :=
  match actions with
  | [] => []
  | CallSend type_ entity :: rest =>
      json_dumps libs (envelope type_ entity) :: frames_sent libs rest
  | WriterTurn :: rest => frames_sent libs rest
  end.

(** The session [s'] is on the connection of [s]. *)
Definition same_connection (s s' : Session) : Prop :=
  _websocket (client s') = _websocket (client s)
  /\ _cache (client s') = _cache (client s).

(** Written frames followed by queued frames: the frames in the
    order they were queued. *)
Definition pipeline (s : Session) : list string :=
  sent s ++ _send_queue (client s).

(** *** Stand-ins for the libraries, to run the model on *)

(** The character that delimits a JSON string. *)
Definition quote : string := String (Ascii.ascii_of_nat 34) EmptyString.

(** A serialiser in the default layout of [json.dumps], without
    escapes. *)
Fixpoint plain_dumps (v : pyval) : string :=
  match v with
  | PNone => "null"
  | PBool true => "true"
  | PBool false => "false"
  | PInt n => pretty n
  | PFloat literal => literal
  | PStr s => quote +:+ s +:+ quote
  | PList items => "[" +:+ String.concat ", " (List.map plain_dumps items) +:+ "]"
  | PDict items =>
      "{" +:+ String.concat ", "
                (List.map (fun '(k, v) =>
                             quote +:+ k +:+ quote +:+ ": " +:+ plain_dumps v)
                          items)
          +:+ "}"
  end.

Definition bob_entity : pyval :=
  PDict [("ip", PStr "192.0.2.7"); ("port", PInt 27015)].
Definition bob_entity_port_first : pyval :=
  PDict [("port", PInt 27015); ("ip", PStr "192.0.2.7")].

(** The messages the stand-in parser knows. *)
Definition known_messages : list pyval :=
  [ envelope "subscribe" bob_entity;
    envelope "subscribe" bob_entity_port_first;
    envelope "subscribe" (PStr "192.0.2.7:27015");
    envelope "unsubscribe" bob_entity;
    PDict [("type", PStr "subscribe")] ].

Fixpoint brackets (n : nat) : string :=
  match n with
  | O => ""
  | S n' => String "["%char (brackets n')
  end.

Fixpoint opening_brackets (s : string) : nat :=
  match s with
  | String "["%char rest => S (opening_brackets rest)
  | _ => O
  end.

(** A parser that knows [known_messages], gives up on nesting a
    thousand deep the way the interpreter's recursion limit makes
    [json.loads] do, and finds everything else malformed. *)
Definition plain_loads (raw : string) : result pyval :=
  match List.find (fun v => String.eqb (plain_dumps v) raw) known_messages with
  | Some v => Returns v
  | None =>
      if 1000 <=? opening_brackets raw then Throws (OtherError "RecursionError")
      else Throws (ValueError "Expecting value: line 1 column 1 (char 0)")
  end.

(** Modelled from the spec: an [Address] is [{ip: IP-address, port:
    uint16}]; the constructor of [serverstf.cache.Address] is taken to
    accept a string and a port number in range, and nothing else. *)
Definition strict_Address (x y : pyval) : result Address :=
  match x, y with
  | PStr i, PInt p =>
      if ((0 <=? p) && (p <? 65536))%Z then Returns (mkAddress i p)
      else Throws (ValueError "port out of range")
  | _, _ => Throws (ValueError "not an address")
  end.

Definition plain_libs : Libs := mkLibs plain_loads plain_dumps strict_Address.

Definition first_session : Session :=
  new_session (Client_init (mkWebSocket 0) (mkCache 0)).

End websocket.

(** ** serverstf/poll.py: the [poll] subcommand, and more words *)

Module poll_once.
Import cache poll.

(** The arguments of the [poll] subcommand. *)
Record PollArgs : Type := mkPollArgs {
  poll_address : Address;
  poll_geoip : string;
}.

(** [_poll_main].  The [else] block, which sorts the players and
    prints the report, is [report]; the tagger that [Tagger.scan]
    builds is the [tagger_evaluate] of [env].  [raise FatalError from
    exc] raises the class, so the exception has no message. *)
Definition _poll_main (env : Env) (report : Status -> result unit)
    (args : PollArgs) : M World unit :=
  geoip <- Reader_open env (poll_geoip args) ;;
  try_except_else (poll env (poll_address args))
    (fun exc =>
       match exc with
       | PollError _ => Some (raise (FatalError ""))
       | _ => None
       end)
    (fun status => lift (report status)).

(** *** Words for the statements *)

(** The addresses polled, read off the trace: every poll begins with
    the info sub-query. *)
Definition polled (evs : list event) : list Address :=
  omap (fun ev =>
          match ev with
          | EvQuery q GetInfo => Some (mkAddress (host q).1 (host q).2)
          | _ => None
          end) evs.

(** The events that go through a cache connection. *)
Definition is_cache_event (ev : event) : bool :=
  match ev with
  | EvConnect _ | EvDisconnect _ | EvPop _ _ | EvEmptyQueue _
  | EvAllIterator _ | EvSet _ _ => true
  | _ => false
  end.

Definition is_set_event (ev : event) : bool :=
  match ev with
  | EvSet _ _ => true
  | _ => false
  end.

(** What a turn of the loop body leaves behind. *)
Inductive body_result (wc : Cache) (a : Address) (w : World)
    : outcome unit -> World -> list event -> Prop :=
| BodyWrote st w' evs :
    address st = a ->
    interest st = None ->
    statuses w' = <[a := st]> (statuses w) ->
    List.filter is_set_event evs = [EvSet wc st] ->
    body_result wc a w (Ok tt) w' evs
| BodySkipped w' evs :
    statuses w' = statuses w ->
    List.filter is_set_event evs = [] ->
    body_result wc a w (Ok tt) w' evs
| BodyRaised l w' evs :
    statuses w' = statuses w ->
    List.filter is_set_event evs = [] ->
    body_result wc a w (Raise (Lib l)) w' evs.

(** *** More worlds to run the poller in *)

(** A server that answers, at an address the GeoIP database does not
    know. *)
Definition no_city_env : Env :=
  mkEnv (fun _ => Returns bob_info)
        (fun _ => Returns bob_players)
        (fun _ => Returns (mkRules []))
        (fun _ _ _ => Returns ∅)
        (fun _ => Throws (OtherError "AddressNotFoundError"))
        (fun _ => Returns tt)
        timedelta_new
        (fun _ => []).

(** A server whose players query comes back broken. *)
Definition broken_players_env : Env :=
  mkEnv (fun _ => Returns bob_info)
        (fun _ => Throws BrokenMessageError)
        (fun _ => Returns (mkRules []))
        (fun _ _ _ => Returns ∅)
        (fun _ => Returns (mkCity (Some "GB") None None))
        (fun _ => Returns tt)
        timedelta_new
        (fun _ => []).

(** A producer that pushes Bob's server again before every pop. *)
Definition busy_env : Env :=
  mkEnv (fun _ => Returns bob_info)
        (fun _ => Returns bob_players)
        (fun _ => Returns (mkRules []))
        (fun _ _ _ => Returns ∅)
        (fun _ => Returns (mkCity (Some "GB") None None))
        (fun _ => Returns tt)
        timedelta_new
        (fun _ => [bob_address]).

Definition status_at (a : Address) : Status :=
  assembled a bob_info [("Bob", 5%Z, mkTimedelta 0 90 0)]
            (mkCity (Some "GB") None None) ∅.

(** A cache that knows two servers. *)
Definition cached_world : World :=
  mkWorld (<[bob_address := status_at bob_address]>
             (<[other_address := status_at other_address]> ∅))
          [] 0 0 [].

Definition queued_world : World := mkWorld ∅ [bob_address] 0 0 [].

End poll_once.

(** ** serverstf/websocket.py: more words and stand-ins *)

Module websocket_more.
Import cache websocket.

(** A frame that carries an error to the peer. *)
Definition is_error_frame (libs : Libs) (frame : string) : Prop :=
  exists description, frame = json_dumps libs (envelope "error" (PStr description)).

(** The peer has not disconnected at this tick. *)
Definition live (t : tick) : Prop := t <> Received None.

(** The frames received among the ticks. *)
Fixpoint received (ticks : list tick) : nat :=
  match ticks with
  | [] => 0
  | Received (Some _) :: rest => S (received rest)
  | _ :: rest => received rest
  end.

(** The values [address] may hand to [Address]: a string that came
    under [ip] and an integer that came under [port]. *)
Definition is_str (v : pyval) : Prop := exists s, v = PStr s.
Definition is_int (v : pyval) : Prop :=
  (exists n, v = PInt n) \/ (exists b, v = PBool b).

(** A frame that [json.loads] decodes to a subscription with this
    entity. *)
Definition subscribes (libs : Libs) (raw : string) (entity : pyval) : Prop :=
  exists items out,
    json_loads libs raw = Returns (PDict items)
    /\ Schema_dict envelope_schema (PDict items) = Returns out
    /\ dict_get items "type" = Some (PStr "subscribe")
    /\ dict_get items "entity" = Some entity.

(** The dict the schema of [address] builds, as it grows: nothing
    yet, one of the two keys, or both in the order they came. *)
Inductive address_args : list (string * pyval) -> Prop :=
| args_none : address_args []
| args_ip x : is_str x -> address_args [("ip", x)]
| args_port y : is_int y -> address_args [("port", y)]
| args_ip_port x y :
    is_str x -> is_int y -> address_args [("ip", x); ("port", y)]
| args_port_ip x y :
    is_str x -> is_int y -> address_args [("port", y); ("ip", x)].

(** The session after a frame was refused with this description. *)
Definition refused (libs : Libs) (description : string) (s : Session)
    : Session :=
  queued (error_frame libs description) (logged (LogBadMessage description) s).

(** What [_read] does with a subscription whose entity [address]
    fails on with [e]. *)
Definition after_entity_failure (libs : Libs) (raw : string) (e : lib_exn)
    (s : Session) : Session :=
  match e with
  | ValueError _ => refused libs "Entity: not a valid value" s
  | Invalid m => refused libs ("Entity: " +:+ m) s
  | _ => logged (LogHandlingError raw (Lib e)) s
  end.

(** *** A transport that can refuse a write *)

(** What the event loop does next, when [self._websocket.send] can
    raise: a turn as before, where the transport takes what the
    writer hands it, or a turn of the writer in which [send] raises
    [e]. *)
Inductive step : Type :=
| Turn (t : tick)
| WriteRefused (e : lib_exn).

(** One turn of the loop of [Client._write] in which [send] raises:
    [get] has taken the message off the queue by then. *)
Definition write_turn_refused (e : lib_exn) : M Session unit :=
  fun s =>
    match _send_queue (client s) with
    | [] => (Running, s)
    | message :: q => (Raise (Lib e), set_send_queue q s)
    end.

Definition is_InvalidStateError (e : exn) : bool :=
  match e with
  | Lib (OtherError name) => String.eqb name "InvalidStateError"
  | _ => false
  end.

(** The end of [Client.process] when the task that is done has
    raised [e]: [task.result()] raises it again, and it is logged
    unless it is an [asyncio.InvalidStateError]. *)
Definition finish_after (e : exn) : M Session unit :=
  finish ;;;
  if is_InvalidStateError e then ret tt else logging (LogTaskError e).

(** [Client.process] over such a transport.  On the turns of
    [process] it does what [process] does. *)
Fixpoint process_on_transport (libs : Libs) (steps : list step)
    : M Session unit :=
  match steps with
  | [] => out_of_fuel
  | Turn (Received r) :: rest =>
      fun s =>
        match read_turn libs r s with
        | (Ok true, s') => process_on_transport libs rest s'
        | (_, s') => finish s'
        end
  | Turn Flush :: rest =>
      fun s =>
        match write_turn s with
        | (Ok _, s') => process_on_transport libs rest s'
        | (Running, _) => process_on_transport libs rest s
        | (Raise e, s') => finish_after e s'
        end
  | WriteRefused e :: rest =>
      fun s =>
        match write_turn_refused e s with
        | (Raise exc, s') => finish_after exc s'
        | (_, _) => process_on_transport libs rest s
        end
  end.


(** The session [process] leaves when it returns from [s], with
    what it logged on the way out. *)
Definition closed_session (s : Session) (entries : list log_entry) : Session :=
  mkSession (client s) (sent s) (log s ++ entries) CLOSED.

(** A constructor that raises [TypeError], not [ValueError], on
    arguments of the wrong type. *)
Definition typed_Address (x y : pyval) : result Address :=
  match x, y with
  | PStr i, PInt p => Returns (mkAddress i p)
  | _, _ => Throws (TypeError "expected str and int")
  end.

Definition typed_libs : Libs := mkLibs plain_loads plain_dumps typed_Address.

Definition subscribe_port_first : string :=
  plain_dumps (envelope "subscribe" bob_entity_port_first).
Definition subscribe_bob : string :=
  plain_dumps (envelope "subscribe" bob_entity).

End websocket_more.

(** ** Facts about serverstf/poll.py *)

Module poll_facts.
Import cache poll poll_once.

(** *** [poll], case by case *)

Ltac run_monad :=
  unfold poll, _query_server, get_info, get_players, get_rules, query_call,
    try_except_else, bind, emit, lift, ret, raise, add_trace; simpl.

(** A sub-query that throws ends the poll there. *)
Lemma poll_sub_query_fails env a w rq e :
  sub_query_failure env a = Some (rq, e) ->
  poll env a w = (Raise (query_server_raises e a),
                  add_trace w (queries_through a rq)).
Proof.
  unfold sub_query_failure. intros H. run_monad.
  destruct (a2s_info env (ip a, port a)) as [info|e1]; simpl.
  - destruct (a2s_players env (ip a, port a)) as [players|e2]; simpl.
    + destruct (a2s_rules env (ip a, port a)) as [rules|e3]; simpl;
        [discriminate|].
      injection H as <- <-.
      rewrite <- !app_assoc; simpl.
      unfold query_server_raises; by destruct e3.
    + injection H as <- <-.
      rewrite <- !app_assoc; simpl.
      unfold query_server_raises; by destruct e2.
  - injection H as <- <-.
    unfold query_server_raises; by destruct e1.
Qed.

(** With three answers, the tagger, then the GeoIP lookup, then the
    loop over the players run. *)
Lemma poll_sub_queries_answer env a w info players rules :
  a2s_info env (ip a, port a) = Returns info ->
  a2s_players env (ip a, port a) = Returns players ->
  a2s_rules env (ip a, port a) = Returns rules ->
  poll env a w =
    match tagger_evaluate env info players rules with
    | Throws e => (Raise (Lib e), add_trace w (queries_through a GetRules ++ [EvTagger]))
    | Returns tags =>
        match geoip_city env (ip a) with
        | Throws e =>
            (Raise (Lib e),
             add_trace w (queries_through a GetRules
                          ++ [EvTagger; EvGeoipCity (ip a)]))
        | Returns location =>
            (match scores_loop env (response_players players) [] with
             | Throws e => Raise (Lib e)
             | Returns scores => Ok (assembled a info scores location tags)
             end,
             add_trace w (queries_through a GetRules
                          ++ [EvTagger; EvGeoipCity (ip a)]))
        end
    end.
Proof.
  intros Hi Hp Hr. run_monad. rewrite Hi; simpl. rewrite Hp; simpl.
  rewrite Hr; simpl.
  destruct (tagger_evaluate env info players rules) as [tags|e]; simpl.
  - destruct (geoip_city env (ip a)) as [location|e]; simpl;
      [|by rewrite <- !app_assoc].
    destruct (scores_loop env (response_players players) []); simpl;
      by rewrite <- !app_assoc.
  - by rewrite <- !app_assoc.
Qed.

(** *** The scores of an assembled status *)

Lemma has_name_true (e : PlayerEntry) :
  has_name e = true <-> entry_name e <> "".
Proof.
  unfold has_name. rewrite negb_true_iff.
  destruct (String.eqb_spec (entry_name e) ""); split; congruence.
Qed.

(** The loop returns the rows of the entries with a name, behind
    what it started with, or raises what [timedelta] raised at the
    first of them it refuses. *)
Lemma scores_loop_rows env entries :
  forall acc,
    match scores_loop env entries acc with
    | Returns scores =>
        first_refused env entries = None
        /\ exists rows, scores = acc ++ rows /\ rows_of env (named entries) rows
    | Throws exc => exists e, first_refused env entries = Some (e, exc)
    end.
Proof.
  induction entries as [|e entries IH]; intros acc.
  - simpl. split; [done|]. exists []. split; [by rewrite app_nil_r|constructor].
  - cbn [scores_loop first_refused]. unfold named. cbn [List.filter].
    assert (Hname : has_name e = negb (String.eqb (entry_name e) "")) by done.
    rewrite !Hname.
    destruct (String.eqb (entry_name e) ""); cbn [negb]; [apply IH|].
    destruct (timedelta_seconds env (entry_duration e)) as [duration|exc] eqn:Hd;
      [|by eexists].
    specialize (IH (acc ++ [(entry_name e, entry_score e, duration)])).
    destruct (scores_loop env entries _) as [scores|exc]; [|done].
    destruct IH as (Hnone & rows & -> & Hrows). split; [done|].
    exists (score_row e duration :: rows).
    split; [by rewrite <- app_assoc|].
    constructor; [by exists duration|done].
Qed.

Lemma first_refused_None env entries :
  first_refused env entries = None <-> Forall (accepted env) (named entries).
Proof.
  unfold named. induction entries as [|e entries IH]; [done|].
  cbn [first_refused List.filter]. destruct (has_name e); [|done].
  destruct (timedelta_seconds env (entry_duration e)) as [duration|exc] eqn:Hd.
  - rewrite IH. split; [|by inversion 1].
    intros H. constructor; [by exists duration|done].
  - split; [done|]. inversion 1 as [|? ? [duration Hacc] _]. congruence.
Qed.

(** C2. When the three sub-queries answer [info], [presp] and [rules]
    (and the tagger and the GeoIP lookup answer too), and [timedelta]
    accepts the duration of every entry of [presp] whose name is not
    empty, [poll] returns a status whose [players.scores] is, in
    order, the row [(name, score, timedelta(seconds=duration))] of
    exactly those entries, and whose [players.current], [players.max]
    and [players.bots] are the [player_count], [max_players] and
    [bot_count] of [info].  [poll] returns in no other case: when
    [timedelta] refuses one of those durations, [poll] raises what it
    raised at the first of them.  With the one entry Bob, score 5,
    90 seconds, the scores are [[("Bob", 5, 90s)]]. *)
Theorem poll_players_scores env a w info presp rules tgs location :
  a2s_info env (ip a, port a) = Returns info ->
  a2s_players env (ip a, port a) = Returns presp ->
  a2s_rules env (ip a, port a) = Returns rules ->
  tagger_evaluate env info presp rules = Returns tgs ->
  geoip_city env (ip a) = Returns location ->
  (Forall (accepted env) (named (response_players presp)) ->
   exists st w',
     poll env a w = (Ok st, w')
     /\ rows_of env (named (response_players presp)) (scores (players st))
     /\ length (scores (players st)) = length (named (response_players presp))
     /\ current (players st) = player_count info
     /\ max_ (players st) = max_players info
     /\ bots (players st) = bot_count info)
  /\ (forall st,
        (poll env a w).1 = Ok st ->
        Forall (accepted env) (named (response_players presp))
        /\ rows_of env (named (response_players presp)) (scores (players st)))
  /\ (forall e exc,
        first_refused env (response_players presp) = Some (e, exc) ->
        (poll env a w).1 = Raise (Lib exc))
  /\ (forall duration span,
        response_players presp = [mkPlayerEntry "Bob" 5 duration] ->
        timedelta_seconds env duration = Returns span ->
        exists st w',
          poll env a w = (Ok st, w')
          /\ scores (players st) = [("Bob", 5%Z, span)]).
Proof.
  intros Hi Hp Hr Ht Hg.
  rewrite (poll_sub_queries_answer env a w info presp rules Hi Hp Hr), Ht, Hg.
  pose proof (scores_loop_rows env (response_players presp) []) as Hloop.
  split; [|split; [|split]].
  - intros Hacc. apply first_refused_None in Hacc.
    destruct (scores_loop env (response_players presp) []) as [rows|exc].
    + destruct Hloop as (_ & rows' & -> & Hrows).
      eexists _, _. split; [reflexivity|]. simpl.
      split; [done|]. split; [|done].
      symmetry. by eapply Forall2_length.
    + destruct Hloop as [e He]. congruence.
  - intros st Hst.
    destruct (scores_loop env (response_players presp) []) as [rows|exc];
      [|discriminate].
    destruct Hloop as (Hnone & rows' & -> & Hrows).
    simpl in Hst. injection Hst as <-.
    split; [by apply first_refused_None|done].
  - intros e exc Hsome.
    destruct (scores_loop env (response_players presp) []) as [rows|exc'].
    + destruct Hloop as [Hnone _]. congruence.
    + destruct Hloop as [e' He']. simpl. congruence.
  - intros duration span Hbob Hspan. rewrite Hbob. simpl. rewrite Hspan.
    by eexists _, _.
Qed.

(** The Bob scenario, run. *)
Lemma poll_players_scores_witness :
  exists st w',
    poll bob_env bob_address empty_world = (Ok st, w')
    /\ scores (players st) = [("Bob", 5%Z, mkTimedelta 0 90 0)]
    /\ current (players st) = 1%Z.
Proof.
  destruct (poll_players_scores bob_env bob_address empty_world
              bob_info bob_players (mkRules []) ∅ (mkCity (Some "GB") None None)
              eq_refl eq_refl eq_refl eq_refl eq_refl)
    as (_ & _ & _ & Hbob).
  destruct (Hbob (NumFloat 90 0) (mkTimedelta 0 90 0) eq_refl eq_refl)
    as (st & w' & Hpoll & Hscores).
  exists st, w'. split; [exact Hpoll|]. split; [exact Hscores|].
  by injection Hpoll as <- _.
Defined.

(** A triple the specification's sentence fails on: Eve's duration
    is more than a time span holds, [timedelta] raises
    [OverflowError], and [poll] raises it instead of returning a
    status. *)
Lemma long_duration_is_not_assembled : ~ assembles_every_triple eve_env.
Proof.
  intros Hclaim.
  destruct (Hclaim bob_address empty_world bob_info eve_players (mkRules []) ∅
              (mkCity (Some "GB") None None)
              eq_refl eq_refl eq_refl eq_refl eq_refl)
    as (st & Hst & _).
  vm_compute in Hst. discriminate.
Qed.

(** *** When [poll] fails *)

Lemma sub_query_failure_None env a :
  sub_query_failure env a = None ->
  exists info presp rules,
    a2s_info env (ip a, port a) = Returns info
    /\ a2s_players env (ip a, port a) = Returns presp
    /\ a2s_rules env (ip a, port a) = Returns rules.
Proof.
  unfold sub_query_failure.
  destruct (a2s_info env (ip a, port a)) as [info|]; [|discriminate].
  destruct (a2s_players env (ip a, port a)) as [presp|]; [|discriminate].
  destruct (a2s_rules env (ip a, port a)) as [rules|]; [|discriminate].
  intros _. by exists info, presp, rules.
Qed.

Lemma query_server_raises_PollError e a msg :
  query_server_raises e a = PollError msg ->
  exists k, poll_failure_of e = Some k /\ msg = poll_failure_message k a.
Proof.
  unfold query_server_raises.
  destruct (poll_failure_of e) as [k|]; [|discriminate].
  intros [= <-]. by exists k.
Qed.

(** C4. [poll] raises [PollError] exactly when one of the three
    sub-queries fails in one of the three ways the transport fails:
    no response in time (unreachable), compressed fragments
    (unsupported), a broken message (broken response); the message
    names the way.  A poll that returns has issued exactly the three
    sub-queries, info, players, rules, against [(ip, port)] with a
    timeout of 5 seconds, and the tagger and the GeoIP lookup show up
    in the trace only behind three sub-queries that all answered. *)
Theorem poll_raises_PollError env a w :
  ((exists msg, (poll env a w).1 = Raise (PollError msg)) <->
   (exists rq e k, sub_query_failure env a = Some (rq, e)
                   /\ poll_failure_of e = Some k))
  /\ (forall rq e,
        sub_query_failure env a = Some (rq, e) ->
        (poll env a w).1 =
          match poll_failure_of e with
          | Some Unreachable =>
              Raise (PollError ("Timed out waiting for response from "
                                +:+ Address_str a))
          | Some Unsupported =>
              Raise (PollError ("Compressed fragments; couldn't poll "
                                +:+ Address_str a))
          | Some BrokenResponse =>
              Raise (PollError ("Seemingly broken response from "
                                +:+ Address_str a))
          | None => Raise (Lib e)
          end)
  /\ (forall st,
        (poll env a w).1 = Ok st ->
        sub_query_failure env a = None
        /\ trace (poll env a w).2
           = trace w ++ [EvQuery (mkServerQuerier (ip a, port a) 5) GetInfo;
                         EvQuery (mkServerQuerier (ip a, port a) 5) GetPlayers;
                         EvQuery (mkServerQuerier (ip a, port a) 5) GetRules;
                         EvTagger; EvGeoipCity (ip a)])
  /\ (exists evs,
        trace (poll env a w).2 = trace w ++ evs
        /\ ((In EvTagger evs \/ In (EvGeoipCity (ip a)) evs) ->
            sub_query_failure env a = None
            /\ exists rest,
                 evs = [EvQuery (mkServerQuerier (ip a, port a) 5) GetInfo;
                        EvQuery (mkServerQuerier (ip a, port a) 5) GetPlayers;
                        EvQuery (mkServerQuerier (ip a, port a) 5) GetRules]
                       ++ rest
                 /\ List.filter is_query rest = [])).
Proof.
  destruct (sub_query_failure env a) as [[rq e]|] eqn:Hfail.
  - rewrite (poll_sub_query_fails env a w rq e Hfail). simpl.
    split; [|split; [|split]].
    + split.
      * intros [msg [= Hmsg]].
        apply query_server_raises_PollError in Hmsg as (k & Hk & _).
        by exists rq, e, k.
      * intros (rq' & e' & k & [= <- <-] & Hk).
        unfold query_server_raises. rewrite Hk. eauto.
    + intros rq' e' [= <- <-]. unfold query_server_raises.
      by destruct (poll_failure_of e) as [[]|].
    + intros st [=].
    + exists (queries_through a rq). split; [done|].
      intros Hin. exfalso.
      destruct rq; simpl in Hin; intuition discriminate.
  - destruct (sub_query_failure_None env a Hfail)
      as (info & presp & rules & Hi & Hp & Hr).
    rewrite (poll_sub_queries_answer env a w info presp rules Hi Hp Hr).
    split; [|split; [|split]].
    + split.
      * intros [msg Hmsg]. exfalso.
        destruct (tagger_evaluate env info presp rules); [|discriminate].
        destruct (geoip_city env (ip a)); [|discriminate].
        destruct (scores_loop env (response_players presp) []); discriminate.
      * intros (rq & e & k & [=] & _).
    + intros rq e [=].
    + intros st Hst. split; [done|].
      destruct (tagger_evaluate env info presp rules); [|discriminate].
      destruct (geoip_city env (ip a)); [|discriminate]. done.
    + destruct (tagger_evaluate env info presp rules).
      * exists (queries_through a GetRules ++ [EvTagger; EvGeoipCity (ip a)]).
        split; [by destruct (geoip_city env (ip a))|].
        intros _. split; [done|]. by eexists.
      * exists (queries_through a GetRules ++ [EvTagger]).
        split; [done|]. intros _. split; [done|]. by eexists.
Qed.

(** A server that never answers, and one that does. *)
Lemma poll_raises_PollError_witness :
  (poll down_env bob_address empty_world).1
  = Raise (PollError "Timed out waiting for response from 192.0.2.7:27015")
  /\ trace (poll bob_env bob_address empty_world).2
     = [EvQuery (mkServerQuerier ("192.0.2.7", 27015%Z) 5) GetInfo;
        EvQuery (mkServerQuerier ("192.0.2.7", 27015%Z) 5) GetPlayers;
        EvQuery (mkServerQuerier ("192.0.2.7", 27015%Z) 5) GetRules;
        EvTagger; EvGeoipCity "192.0.2.7"].
Proof.
  destruct (poll_raises_PollError down_env bob_address empty_world)
    as (_ & Hkind & _).
  destruct (poll_raises_PollError bob_env bob_address empty_world)
    as (_ & _ & Hreturns & _).
  split.
  - exact (Hkind GetInfo NoResponseError eq_refl).
  - exact (proj2 (Hreturns _ eq_refl)).
Defined.

(** *** What the loop leaves in the trace *)

Lemma extends_refl P w : extends P w w.
Proof. exists []. by rewrite app_nil_r. Qed.

Lemma extends_trans P w1 w2 w3 :
  extends P w1 w2 -> extends P w2 w3 -> extends P w1 w3.
Proof.
  intros (evs1 & H1 & F1) (evs2 & H2 & F2). exists (evs1 ++ evs2).
  split; [by rewrite H2, H1, <- app_assoc|]. by apply Forall_app.
Qed.

Lemma extends_add_trace P w evs : Forall P evs -> extends P w (add_trace w evs).
Proof. intros H. by exists evs. Qed.

(** A poll adds its own events and changes nothing else. *)
Lemma poll_world env a w :
  exists evs, (poll env a w).2 = add_trace w evs /\ Forall poll_event evs.
Proof.
  destruct (sub_query_failure env a) as [[rq e]|] eqn:Hfail.
  - rewrite (poll_sub_query_fails env a w rq e Hfail).
    exists (queries_through a rq). split; [done|].
    destruct rq; repeat constructor.
  - destruct (sub_query_failure_None env a Hfail)
      as (info & presp & rules & Hi & Hp & Hr).
    rewrite (poll_sub_queries_answer env a w info presp rules Hi Hp Hr).
    destruct (tagger_evaluate env info presp rules);
      [destruct (geoip_city env (ip a))|];
      eexists; (split; [reflexivity|]); repeat constructor.
Qed.

(** The two branches of the loop body. *)
Lemma watch_body_PollError env wc a w msg w1 :
  poll env a w = (Raise (PollError msg), w1) ->
  watch_body env wc a w = (Ok tt, add_trace w1 [EvLogError a msg]).
Proof. intros H. unfold watch_body, try_except_else. by rewrite H. Qed.

Lemma watch_body_Ok env wc a w st w1 :
  poll env a w = (Ok st, w1) ->
  watch_body env wc a w = cache_set wc st w1.
Proof. intros H. unfold watch_body, try_except_else. by rewrite H. Qed.

Lemma watch_body_other env wc a w e w1 :
  poll env a w = (Raise e, w1) ->
  (forall msg, e <> PollError msg) ->
  watch_body env wc a w = (Raise e, w1).
Proof.
  intros H Hne. unfold watch_body, try_except_else. rewrite H.
  destruct e; try done. by destruct (Hne msg).
Qed.

Lemma pop_events_app evs evs' :
  pop_events (evs ++ evs') = pop_events evs ++ pop_events evs'.
Proof. apply List.filter_app. Qed.

Lemma pop_events_poll evs : Forall poll_event evs -> pop_events evs = [].
Proof.
  induction 1 as [|ev evs Hev _ IH]; [done|].
  unfold pop_events in *. simpl. rewrite IH. by destruct ev.
Qed.

Lemma watch_body_quiet env wc : polls_settle env -> quiet_body (watch_body env wc).
Proof.
  intros Hsettle a w.
  destruct (poll_world env a w) as (evs & Hw & Hevs).
  destruct (poll env a w) as [o w1] eqn:Hpoll. simpl in Hw. subst w1.
  destruct (Hsettle a w) as [[st Hst]|[msg Hmsg]];
    rewrite Hpoll in *; simpl in *; subst o.
  - rewrite (watch_body_Ok _ _ _ _ _ _ Hpoll). unfold cache_set; simpl.
    eexists _, (evs ++ [EvSet wc st]). split; [reflexivity|]. simpl.
    repeat split; [by rewrite <- app_assoc|].
    rewrite pop_events_app, pop_events_poll by done. done.
  - rewrite (watch_body_PollError _ _ _ _ _ _ Hpoll). simpl.
    eexists _, (evs ++ [EvLogError a msg]). split; [reflexivity|]. simpl.
    repeat split; [by rewrite <- app_assoc|].
    rewrite pop_events_app, pop_events_poll by done. done.
Qed.

(** *** Draining the interest queue *)

Lemma next_interest_empty env r w :
  interest_queue w ++ producer env (pops w) = [] ->
  next env (InterestQueue r) w
  = (Ok None,
     mkWorld (statuses w) [] (S (pops w)) (next_session w)
             (trace w ++ [EvEmptyQueue r])).
Proof.
  intros H. unfold next, try_except_else, interesting_context. by rewrite H.
Qed.

Lemma next_interest_pop env r w a q :
  interest_queue w ++ producer env (pops w) = a :: q ->
  next env (InterestQueue r) w
  = (Ok (Some (a, InterestQueue r)),
     mkWorld (statuses w) q (S (pops w)) (next_session w)
             (trace w ++ [EvPop r a])).
Proof.
  intros H. unfold next, try_except_else, interesting_context. by rewrite H.
Qed.

(** One turn of the [for] loop, spelled out. *)
Lemma for_each_S fuel env it body w :
  for_each (S fuel) env it body w =
    match next env it w with
    | (Ok None, w1) => (Ok tt, w1)
    | (Ok (Some (a, it')), w1) =>
        match body a w1 with
        | (Ok _, w2) => for_each fuel env it' body w2
        | (Raise e, w2) => (Raise e, w2)
        | (Running, w2) => (Running, w2)
        end
    | (Raise e, w1) => (Raise e, w1)
    | (Running, w1) => (Running, w1)
    end.
Proof.
  cbn [for_each]. unfold bind.
  destruct (next env it w) as [[[[a it']|]|e|] w1]; reflexivity.
Qed.

Lemma _watch_S fuel env r wc all_ w :
  _watch (S fuel) env r wc all_ w =
    match watch_pass fuel env r wc all_ w with
    | (Ok _, w1) => _watch fuel env r wc all_ w1
    | (Raise e, w1) => (Raise e, w1)
    | (Running, w1) => (Running, w1)
    end.
Proof. reflexivity. Qed.

Lemma watch_pass_interest fuel env r wc w :
  watch_pass fuel env r wc false w
  = for_each fuel env (_interest_queue_iterator r) (watch_body env wc) w.
Proof. reflexivity. Qed.

Lemma watch_pass_all fuel env r wc w :
  watch_pass fuel env r wc true w
  = for_each fuel env (AllIterator (all_addresses w)) (watch_body env wc)
             (add_trace w [EvAllIterator r]).
Proof. reflexivity. Qed.

(** One [for] loop over the iterator, whatever quiet body it runs:
    the pops give the queue in order, then the empty signal ends it. *)
Lemma for_each_interest_drain env r body :
  quiet_body body ->
  forall q fuel w,
    interest_queue w ++ producer env (pops w) = q ->
    producer_silent env (pops w) (length q) ->
    length q < fuel ->
    exists w' evs,
      for_each fuel env (_interest_queue_iterator r) body w = (Ok tt, w')
      /\ trace w' = trace w ++ evs
      /\ pop_events evs = List.map (EvPop r) q ++ [EvEmptyQueue r]
      /\ interest_queue w' = []
      /\ pops w' = pops w + length q + 1.
Proof.
  intros Hbody. unfold _interest_queue_iterator.
  induction q as [|a q IH]; intros fuel w Hq Hsilent Hfuel;
    (destruct fuel as [|fuel]; [simpl in Hfuel; lia|]); rewrite for_each_S.
  - rewrite (next_interest_empty env r w Hq).
    eexists _, [EvEmptyQueue r]. split; [reflexivity|]. simpl.
    split; [done|]. split; [done|]. split; [done|]. lia.
  - rewrite (next_interest_pop env r w a q Hq).
    set (w1 := mkWorld _ _ _ _ _).
    destruct (Hbody a w1) as (w2 & evs & Hrun & Hqueue & Hpops & Htrace & Hquiet).
    rewrite Hrun.
    destruct (IH fuel w2) as (w' & evs' & Hloop & Htrace' & Hpop' & Hempty & Hcount).
    + rewrite Hqueue, Hpops. simpl.
      replace (S (pops w)) with (pops w + 1) by lia.
      rewrite (Hsilent 1) by (simpl; lia). apply app_nil_r.
    + intros k Hk. rewrite Hpops. simpl pops.
      replace (S (pops w) + k) with (pops w + S k) by lia.
      apply Hsilent. simpl; lia.
    + simpl in Hfuel. lia.
    + exists w', ([EvPop r a] ++ evs ++ evs'). split; [exact Hloop|].
      split; [|split; [|split]].
      * rewrite Htrace', Htrace. simpl. by rewrite <- !app_assoc.
      * rewrite !pop_events_app, Hquiet, Hpop'. done.
      * done.
      * rewrite Hcount, Hpops. simpl. lia.
Qed.

(** A loop whose body returns does not raise, whichever iterator it
    walks. *)
Lemma next_not_raise env it w :
  exists step w', next env it w = (Ok step, w').
Proof.
  destruct it as [r|[|a rest]]; simpl; try (by eexists _, _).
  unfold next, try_except_else, interesting_context.
  destruct (interest_queue w ++ producer env (pops w)); by eexists _, _.
Qed.

Lemma for_each_not_raise env body :
  (forall a w, (body a w).1 = Ok tt) ->
  forall fuel it w,
    (for_each fuel env it body w).1 = Ok tt
    \/ (for_each fuel env it body w).1 = Running.
Proof.
  intros Hbody. induction fuel as [|fuel IH]; intros it w; [by right|].
  rewrite for_each_S.
  destruct (next_not_raise env it w) as (step & w1 & ->).
  destruct step as [[a it']|]; [|by left].
  specialize (Hbody a w1). destruct (body a w1) as [o w2]. simpl in Hbody.
  subst o. apply IH.
Qed.

Lemma quiet_body_returns body a w : quiet_body body -> (body a w).1 = Ok tt.
Proof. intros H. by destruct (H a w) as (w' & evs & -> & _). Qed.

(** The scheduler neither returns nor raises while polls settle. *)
Lemma _watch_keeps_running env r wc all_ :
  polls_settle env ->
  forall fuel w, (_watch fuel env r wc all_ w).1 = Running.
Proof.
  intros Hsettle. induction fuel as [|fuel IH]; intros w; [done|].
  rewrite _watch_S.
  assert (Hpass : forall it w0,
             (for_each fuel env it (watch_body env wc) w0).1 = Ok tt
             \/ (for_each fuel env it (watch_body env wc) w0).1 = Running).
  { intros it w0. apply for_each_not_raise. intros a w1.
    apply quiet_body_returns. by apply watch_body_quiet. }
  destruct all_; [rewrite watch_pass_all|rewrite watch_pass_interest];
    match goal with |- context [for_each fuel env ?it _ ?w0] =>
      destruct (Hpass it w0) as [H|H];
      destruct (for_each fuel env it (watch_body env wc) w0) as [o w1]
    end; simpl in H; subst o; solve [apply IH|done].
Qed.

(** *** Which connection each cache operation goes through *)

Lemma poll_event_uses_sessions r wc ev : poll_event ev -> uses_sessions r wc ev.
Proof. by destruct ev. Qed.

Lemma watch_body_sessions env r wc a w :
  extends (uses_sessions r wc) w (watch_body env wc a w).2.
Proof.
  destruct (poll_world env a w) as (evs & Hw & Hevs).
  assert (Hpoll : extends (uses_sessions r wc) w (poll env a w).2).
  { rewrite Hw. apply extends_add_trace.
    eapply Forall_impl; [exact Hevs|]. apply poll_event_uses_sessions. }
  unfold watch_body, try_except_else.
  destruct (poll env a w) as [[st|e|] w1]; simpl in *; try done.
  - eapply extends_trans; [exact Hpoll|].
    exists [EvSet wc st]. split; [done|]. by repeat constructor.
  - destruct e; try done.
    eapply extends_trans; [exact Hpoll|].
    exists [EvLogError a msg]. split; [done|]. by repeat constructor.
Qed.

Lemma next_sessions env r wc it w :
  iterator_reads r it ->
  extends (uses_sessions r wc) w (next env it w).2
  /\ (forall a it', (next env it w).1 = Ok (Some (a, it')) ->
                    iterator_reads r it').
Proof.
  destruct it as [c|[|a rest]]; simpl; intros Hit.
  - subst c. unfold try_except_else, interesting_context.
    destruct (interest_queue w ++ producer env (pops w)) as [|a q]; simpl.
    + split; [|done]. exists [EvEmptyQueue r]. split; [done|].
      by repeat constructor.
    + split; [|by intros ? ? [= <- <-]]. exists [EvPop r a].
      split; [done|]. by repeat constructor.
  - split; [apply extends_refl|done].
  - split; [apply extends_refl|]. by intros ? ? [= <- <-].
Qed.

Lemma for_each_sessions env r wc :
  forall fuel it w,
    iterator_reads r it ->
    extends (uses_sessions r wc) w
            (for_each fuel env it (watch_body env wc) w).2.
Proof.
  induction fuel as [|fuel IH]; intros it w Hit; [apply extends_refl|].
  rewrite for_each_S.
  destruct (next_sessions env r wc it w Hit) as [Hnext Hit'].
  destruct (next env it w) as [[[[a it']|]|e|] w1]; simpl in *; try done.
  pose proof (watch_body_sessions env r wc a w1) as Hbody.
  destruct (watch_body env wc a w1) as [[[]|e|] w2]; simpl in *.
  - eapply extends_trans; [exact Hnext|].
    eapply extends_trans; [exact Hbody|]. apply IH. by eapply Hit'.
  - by eapply extends_trans.
  - by eapply extends_trans.
Qed.

Lemma watch_pass_sessions fuel env r wc all_ w :
  extends (uses_sessions r wc) w (watch_pass fuel env r wc all_ w).2.
Proof.
  destruct all_.
  - rewrite watch_pass_all.
    eapply extends_trans; [|by apply for_each_sessions].
    apply extends_add_trace. by repeat constructor.
  - rewrite watch_pass_interest. by apply for_each_sessions.
Qed.

Lemma _watch_sessions env r wc all_ :
  forall fuel w,
    extends (uses_sessions r wc) w (_watch fuel env r wc all_ w).2.
Proof.
  induction fuel as [|fuel IH]; intros w; [apply extends_refl|].
  rewrite _watch_S.
  pose proof (watch_pass_sessions fuel env r wc all_ w) as Hpass.
  destruct (watch_pass fuel env r wc all_ w) as [[[]|e|] w1]; simpl in *;
    try done.
  eapply extends_trans; [exact Hpass|]. apply IH.
Qed.

(** *** [_poller_main], with the database opened or not *)

(** [_poller_main] once the database has opened: two connections,
    then [_watch] with the first for reading and the second for
    writing. *)
Lemma _poller_main_opened fuel env args w :
  geoip_open env (args_geoip args) = Returns tt ->
  let r := mkCache (next_session w) in
  let wc := mkCache (S (next_session w)) in
  let w0 :=
    mkWorld (statuses w) (interest_queue w) (pops w) (S (S (next_session w)))
            (trace w ++ [EvGeoipOpen (args_geoip args); EvConnect r;
                         EvConnect wc]) in
  _poller_main fuel env args w =
    match _watch fuel env r wc (args_all args) w0 with
    | (Running, w1) => (Running, w1)
    | (o, w1) => (o, add_trace w1 [EvDisconnect wc; EvDisconnect r; EvGeoipClose])
    end.
Proof.
  intros Hopen. unfold _poller_main, Reader_open, bind, emit, lift.
  rewrite Hopen.
  cbn -[_watch]. unfold with_connect, bind, cache_connect, try_finally, emit.
  cbn -[_watch]. rewrite <- !app_assoc. cbn -[_watch].
  destruct (_watch fuel env _ _ (args_all args) _) as [[[]|e|] w1];
    cbn; try done; unfold add_trace; cbn; by rewrite <- !app_assoc.
Qed.

(** [_poller_main] when the database does not open. *)
Lemma _poller_main_not_opened fuel env args w e :
  geoip_open env (args_geoip args) = Throws e ->
  _poller_main fuel env args w
  = (Raise (UnboundLocalError "geoip"),
     add_trace w [EvGeoipOpen (args_geoip args)]).
Proof.
  intros Hopen. unfold _poller_main, Reader_open, bind, emit, lift.
  rewrite Hopen. simpl. unfold try_finally, try_except_else. simpl.
  by destruct e.
Qed.

Lemma _poller_main_sessions fuel env args w :
  extends (uses_sessions (mkCache (next_session w))
                         (mkCache (S (next_session w))))
          w (_poller_main fuel env args w).2.
Proof.
  destruct (geoip_open env (args_geoip args)) as [[]|e] eqn:Hopen.
  - rewrite (_poller_main_opened fuel env args w Hopen). cbv zeta.
    set (r := mkCache (next_session w)). set (wc := mkCache (S (next_session w))).
    set (w0 := mkWorld _ _ _ _ _).
    assert (H0 : extends (uses_sessions r wc) w w0).
    { eexists. split; [reflexivity|]. by repeat constructor. }
    pose proof (_watch_sessions env r wc (args_all args) fuel w0) as Hw.
    destruct (_watch fuel env r wc (args_all args) w0) as [[[]|e|] w1];
      simpl in *.
    + eapply extends_trans; [exact H0|]. eapply extends_trans; [exact Hw|].
      apply extends_add_trace. by repeat constructor.
    + eapply extends_trans; [exact H0|]. eapply extends_trans; [exact Hw|].
      apply extends_add_trace. by repeat constructor.
    + by eapply extends_trans.
  - rewrite (_poller_main_not_opened fuel env args w e Hopen).
    apply extends_add_trace. by repeat constructor.
Qed.

(** *** The scheduler *)

Lemma bob_env_settles : polls_settle bob_env.
Proof.
  intros a w. left.
  rewrite (poll_sub_queries_answer bob_env a w bob_info bob_players (mkRules [])
             eq_refl eq_refl eq_refl).
  by eexists.
Qed.

(** C1. For an address the loop has drawn: when [poll] raises
    [PollError] the body logs it and returns, with the cached
    statuses as they were and no write in the trace; when [poll]
    returns a status the body writes it through [w_cache].  Either
    way the [for] loop goes on with the next address, and while
    [PollError] is all that polls fail with, [_watch] neither returns
    nor raises, however long it runs.  [_poller_main] opens two
    connections, reads addresses through the first only and writes
    statuses through the second only. *)
Theorem watch_polls_each_address env r wc :
  (forall a w msg w1,
      poll env a w = (Raise (PollError msg), w1) ->
      watch_body env wc a w = (Ok tt, add_trace w1 [EvLogError a msg])
      /\ statuses (watch_body env wc a w).2 = statuses w
      /\ exists evs,
           trace (watch_body env wc a w).2 = trace w ++ evs
           /\ forall c st, ~ In (EvSet c st) evs)
  /\ (forall a w st w1,
        poll env a w = (Ok st, w1) ->
        watch_body env wc a w
        = (Ok tt,
           mkWorld (<[address st := st]> (statuses w)) (interest_queue w)
                   (pops w) (next_session w) (trace w1 ++ [EvSet wc st])))
  /\ (forall fuel it it' a w w1,
        next env it w = (Ok (Some (a, it')), w1) ->
        (exists st, (poll env a w1).1 = Ok st)
        \/ (exists msg, (poll env a w1).1 = Raise (PollError msg)) ->
        for_each (S fuel) env it (watch_body env wc) w
        = for_each fuel env it' (watch_body env wc)
                   (watch_body env wc a w1).2)
  /\ (polls_settle env ->
      forall fuel all_ w, (_watch fuel env r wc all_ w).1 = Running)
  /\ (forall fuel args w,
        mkCache (next_session w) <> mkCache (S (next_session w))
        /\ extends (uses_sessions (mkCache (next_session w))
                                  (mkCache (S (next_session w))))
                   w (_poller_main fuel env args w).2).
Proof.
  split; [|split; [|split; [|split]]].
  - intros a w msg w1 Hpoll.
    rewrite (watch_body_PollError env wc a w msg w1 Hpoll).
    destruct (poll_world env a w) as (evs & Hw & Hevs).
    rewrite Hpoll in Hw. simpl in Hw. subst w1.
    split; [done|]. split; [done|].
    exists (evs ++ [EvLogError a msg]). split; [simpl; by rewrite <- app_assoc|].
    intros c st Hin. apply in_app_or in Hin as [Hin|[Hin|[]]]; [|done].
    rewrite Forall_forall in Hevs. apply list_elem_of_In in Hin.
    by apply Hevs in Hin.
  - intros a w st w1 Hpoll.
    rewrite (watch_body_Ok env wc a w st w1 Hpoll).
    destruct (poll_world env a w) as (evs & Hw & Hevs).
    rewrite Hpoll in Hw. simpl in Hw. by subst w1.
  - intros fuel it it' a w w1 Hnext Hsettle.
    rewrite for_each_S, Hnext.
    destruct (poll env a w1) as [o w2] eqn:Hpoll. simpl in Hsettle.
    destruct Hsettle as [[st ->]|[msg ->]].
    + by rewrite (watch_body_Ok env wc a w1 st w2 Hpoll).
    + by rewrite (watch_body_PollError env wc a w1 msg w2 Hpoll).
  - intros Hsettle fuel all_ w. by apply _watch_keeps_running.
  - intros fuel args w. split; [|apply _poller_main_sessions].
    intros [= H]. lia.
Qed.

(** The loop body on a server that never answers, and on Bob's. *)
Lemma watch_polls_each_address_witness :
  watch_body down_env (mkCache 1) bob_address empty_world
  = (Ok tt,
     mkWorld ∅ [] 0 0
       [EvQuery (mkServerQuerier ("192.0.2.7", 27015%Z) 5) GetInfo;
        EvLogError bob_address
          "Timed out waiting for response from 192.0.2.7:27015"])
  /\ (exists w', watch_body bob_env (mkCache 1) bob_address empty_world
                 = (Ok tt, w')
                 /\ is_Some (statuses w' !! bob_address)).
Proof.
  destruct (watch_polls_each_address down_env (mkCache 0) (mkCache 1))
    as (Hfail & _).
  destruct (watch_polls_each_address bob_env (mkCache 0) (mkCache 1))
    as (_ & Hok & _).
  split.
  - exact (proj1 (Hfail bob_address empty_world _ _ eq_refl)).
  - eexists. split; [exact (Hok bob_address empty_world _ _ eq_refl)|].
    simpl. rewrite lookup_insert_eq. by eexists.
Defined.

(** The loop over the iterator is the drain of what is queued: the
    body runs on each queued address, in queue order. *)
Lemma for_each_is_drain env r body :
  quiet_body body ->
  forall q fuel w,
    interest_queue w ++ producer env (pops w) = q ->
    producer_silent env (pops w) (length q) ->
    length q < fuel ->
    for_each fuel env (_interest_queue_iterator r) body w = drain r body q w.
Proof.
  intros Hbody. unfold _interest_queue_iterator.
  induction q as [|a q IH]; intros fuel w Hq Hsilent Hfuel;
    (destruct fuel as [|fuel]; [simpl in Hfuel; lia|]); rewrite for_each_S.
  - by rewrite (next_interest_empty env r w Hq).
  - rewrite (next_interest_pop env r w a q Hq).
    cbn [drain]. unfold bind at 1. unfold pop_yields at 1.
    set (w1 := mkWorld _ _ _ _ _). unfold bind at 1.
    destruct (Hbody a w1) as (w2 & evs & Hrun & Hqueue & Hpops & Htrace & Hquiet).
    rewrite Hrun. apply IH.
    + rewrite Hqueue, Hpops. simpl.
      replace (S (pops w)) with (pops w + 1) by lia.
      rewrite (Hsilent 1) by (simpl; lia). apply app_nil_r.
    + intros k Hk. rewrite Hpops. simpl pops.
      replace (S (pops w) + k) with (pops w + S k) by lia.
      apply Hsilent. simpl; lia.
    + simpl in Hfuel. lia.
Qed.

(** C5. One [for] loop over [_interest_queue_iterator], run by a
    body that leaves the queue alone, is the drain of what is queued:
    at each turn the iterator yields the address it popped, the body
    runs on that address, and so on through the queued addresses, one
    per pop and in queue order (so an address queued [k] times comes
    [k] times); the loop returns at the pop that finds the queue
    empty, its only empty signal.  In interest mode [_watch] then goes
    straight into a new loop over a new iterator, and that loop is the
    drain of exactly what the producer has queued since. *)
Theorem interest_queue_drains env r wc :
  (forall body q fuel w,
      quiet_body body ->
      interest_queue w ++ producer env (pops w) = q ->
      producer_silent env (pops w) (length q) ->
      length q < fuel ->
      for_each fuel env (_interest_queue_iterator r) body w = drain r body q w
      /\ exists w' evs,
           for_each fuel env (_interest_queue_iterator r) body w = (Ok tt, w')
           /\ trace w' = trace w ++ evs
           /\ pop_events evs = List.map (EvPop r) q ++ [EvEmptyQueue r]
           /\ interest_queue w' = []
           /\ pops w' = pops w + length q + 1)
  /\ (forall q1 q2 fuel w,
        polls_settle env ->
        interest_queue w ++ producer env (pops w) = q1 ->
        producer_silent env (pops w) (length q1) ->
        producer env (pops w + length q1 + 1) = q2 ->
        producer_silent env (pops w + length q1 + 1) (length q2) ->
        length q1 < fuel ->
        length q2 < fuel ->
        exists w1 w2 evs1 evs2,
          watch_pass (S fuel) env r wc false w = (Ok tt, w1)
          /\ watch_pass fuel env r wc false w1 = (Ok tt, w2)
          /\ _watch (S (S fuel)) env r wc false w
             = _watch fuel env r wc false w2
          /\ watch_pass (S fuel) env r wc false w
             = drain r (watch_body env wc) q1 w
          /\ watch_pass fuel env r wc false w1
             = drain r (watch_body env wc) q2 w1
          /\ trace w1 = trace w ++ evs1
          /\ pop_events evs1 = List.map (EvPop r) q1 ++ [EvEmptyQueue r]
          /\ trace w2 = trace w1 ++ evs2
          /\ pop_events evs2 = List.map (EvPop r) q2 ++ [EvEmptyQueue r]).
Proof.
  split.
  - intros body q fuel w Hbody Hq Hsilent Hfuel.
    split; [by apply for_each_is_drain|by apply for_each_interest_drain].
  - intros q1 q2 fuel w Hsettle Hq1 Hs1 Hq2 Hs2 Hf1 Hf2.
    pose proof (watch_body_quiet env wc Hsettle) as Hbody.
    destruct (for_each_interest_drain env r _ Hbody q1 (S fuel) w Hq1 Hs1)
      as (w1 & evs1 & Hrun1 & Ht1 & Hp1 & He1 & Hc1); [lia|].
    assert (Hq1' : interest_queue w1 ++ producer env (pops w1) = q2)
      by by rewrite He1, Hc1.
    assert (Hs1' : producer_silent env (pops w1) (length q2))
      by by rewrite Hc1.
    destruct (for_each_interest_drain env r _ Hbody q2 fuel w1 Hq1' Hs1' Hf2)
      as (w2 & evs2 & Hrun2 & Ht2 & Hp2 & He2 & Hc2).
    exists w1, w2, evs1, evs2.
    split; [by rewrite watch_pass_interest|].
    split; [by rewrite watch_pass_interest|].
    split.
    { rewrite (_watch_S (S fuel)), watch_pass_interest, Hrun1.
      by rewrite (_watch_S fuel), watch_pass_interest, Hrun2. }
    split.
    { rewrite watch_pass_interest. apply for_each_is_drain; [done..|lia]. }
    split; [|done].
    rewrite watch_pass_interest. by apply for_each_is_drain.
Qed.

Lemma down_env_settles : polls_settle down_env.
Proof.
  intros a w. right.
  rewrite (poll_sub_query_fails down_env a w GetInfo NoResponseError eq_refl).
  by eexists.
Qed.

(** The queue [[a, a, b]] of servers that are down: the loop tries
    [a], [a] and [b], each behind its pop, and ends at the fourth
    pop, the empty signal. *)
Lemma interest_queue_drains_witness :
  for_each 4 down_env (_interest_queue_iterator (mkCache 0))
           (watch_body down_env (mkCache 1))
           (mkWorld ∅ [bob_address; bob_address; other_address] 0 0 [])
  = (Ok tt,
     mkWorld ∅ [] 4 0
       [EvPop (mkCache 0) bob_address;
        EvQuery (mkServerQuerier ("192.0.2.7", 27015%Z) 5) GetInfo;
        EvLogError bob_address
          "Timed out waiting for response from 192.0.2.7:27015";
        EvPop (mkCache 0) bob_address;
        EvQuery (mkServerQuerier ("192.0.2.7", 27015%Z) 5) GetInfo;
        EvLogError bob_address
          "Timed out waiting for response from 192.0.2.7:27015";
        EvPop (mkCache 0) other_address;
        EvQuery (mkServerQuerier ("198.51.100.3", 27016%Z) 5) GetInfo;
        EvLogError other_address
          "Timed out waiting for response from 198.51.100.3:27016";
        EvEmptyQueue (mkCache 0)]).
Proof.
  destruct (interest_queue_drains down_env (mkCache 0) (mkCache 1)) as [Hdrain _].
  destruct (Hdrain (watch_body down_env (mkCache 1))
              [bob_address; bob_address; other_address] 4
              (mkWorld ∅ [bob_address; bob_address; other_address] 0 0 [])
              (watch_body_quiet down_env (mkCache 1) down_env_settles)
              eq_refl (fun k _ => eq_refl) (le_n 4))
    as (Hloop & _).
  rewrite Hloop. reflexivity.
Defined.

(** C8. When the GeoIP database does not open as a database,
    [_poller_main] does raise [FatalError] from its [except] clause,
    but the [finally] clause then reads the local [geoip], which was
    never bound: what leaves [_poller_main] is [UnboundLocalError],
    which the process boundary reports as an unexpected error, not as
    the fatal one.  Nothing was retried and no cache connection was
    opened. *)
Theorem poller_main_geoip_failure fuel env args w msg :
  geoip_open env (args_geoip args) = Throws (InvalidDatabaseError msg) ->
  _poller_main fuel env args w
  = (Raise (UnboundLocalError "geoip"),
     add_trace w [EvGeoipOpen (args_geoip args)])
  /\ main_exit_status (_poller_main fuel env args w).1 = Some UNEXPECTED_ERROR
  /\ ExitStatus_value
       <$> main_exit_status (_poller_main fuel env args w).1 = Some 2%Z
  /\ main_exit_status (_poller_main fuel env args w).1 <> Some FATAL_ERROR.
Proof.
  intros Hopen. rewrite (_poller_main_not_opened fuel env args w _ Hopen).
  by repeat split.
Qed.

(** The poller started on a file that is not a GeoIP database. *)
Lemma poller_main_geoip_failure_witness :
  _poller_main 10 no_geoip_env (mkArgs "GeoLite2-City.mmdb" "//localhost" false)
               empty_world
  = (Raise (UnboundLocalError "geoip"),
     mkWorld ∅ [] 0 0 [EvGeoipOpen "GeoLite2-City.mmdb"]).
Proof.
  exact (proj1 (poller_main_geoip_failure 10 no_geoip_env
                  (mkArgs "GeoLite2-City.mmdb" "//localhost" false)
                  empty_world "not a MaxMind DB file" eq_refl)).
Defined.

End poll_facts.

(** ** Facts about serverstf/websocket.py *)

Module websocket_facts.
Import cache websocket.

(** *** [_dispatch] and [_read], case by case *)

#[local] Arguments Schema_dict : simpl never.
#[local] Arguments Schema_callable : simpl never.
#[local] Arguments getattr_handler : simpl never.
#[local] Arguments String.append : simpl never.

Lemma handler_name_subscribe libs t :
  getattr_handler libs ("_handle_" +:+ t)
  = if String.eqb t "subscribe" then Some (_handle_subscribe libs) else None.
Proof. reflexivity. Qed.


(** What [_read] does with each kind of outcome of [_dispatch]. *)
Lemma read_turn_MessageError libs raw s msg s1 :
  _dispatch libs raw s = (Raise (MessageError msg), s1) ->
  read_turn libs (Some raw) s
  = (Ok true, queued (error_frame libs msg) (logged (LogBadMessage msg) s1)).
Proof.
  intros H. unfold read_turn, bind, try_except_else. by rewrite H.
Qed.

Lemma read_turn_unexpected libs raw s e s1 :
  _dispatch libs raw s = (Raise e, s1) ->
  (forall msg, e <> MessageError msg) ->
  read_turn libs (Some raw) s = (Ok true, logged (LogHandlingError raw e) s1).
Proof.
  intros H Hne. unfold read_turn, bind, try_except_else. rewrite H.
  destruct e; try done. by destruct (Hne msg).
Qed.

Lemma read_turn_handled libs raw s s1 :
  _dispatch libs raw s = (Ok tt, s1) ->
  read_turn libs (Some raw) s = (Ok true, s1).
Proof.
  intros H. unfold read_turn, bind, try_except_else. by rewrite H.
Qed.

(** [_dispatch] returns or raises, and leaves the session as it was
    unless it logs a subscription. *)
Lemma _dispatch_session libs raw s :
  (exists e, _dispatch libs raw s = (Raise e, s))
  \/ (exists a, _dispatch libs raw s = (Ok tt, logged (LogNewSubscription a) s)).
Proof.
  unfold _dispatch, bind, try_except_else, lift.
  destruct (json_loads libs raw) as [message|e]; simpl;
    [|left; destruct e; by eexists].
  destruct (Schema_dict envelope_schema message) as [out|e]; simpl;
    [|left; destruct e; by eexists].
  unfold subscript at 1.
  destruct message as [| | | | |?|items]; simpl; try (left; by eexists).
  destruct (dict_get items "type") as [[| | | |t| |]|]; simpl;
    try (left; by eexists).
  unfold bind; simpl. rewrite (handler_name_subscribe libs t).
  destruct (String.eqb t "subscribe"); [|left; by eexists].
  destruct (dict_get items "entity") as [entity|]; simpl;
    [|left; by eexists].
  unfold _handle_subscribe, validate, bind, try_except_else, lift.
  destruct (Schema_callable (address libs) entity) as [a|e]; simpl.
  - right. by exists a.
  - left. destruct e; by eexists.
Qed.

(** *** What the envelope schema lets through *)

Lemma dict_get_In (d : list (string * pyval)) k v :
  dict_get d k = Some v -> In (k, v) d.
Proof.
  induction d as [|[k' v'] d IH]; simpl; [done|].
  destruct (String.eqb_spec k k') as [->|_].
  - intros [= ->]. by left.
  - intros H. right. by apply IH.
Qed.

Lemma validate_items_checked schema items :
  forall out out',
    validate_items schema items out = Returns out' ->
    forall k v, In (k, v) items ->
      exists check v', schema_lookup schema k = Some check
                       /\ check v = Returns v'.
Proof.
  induction items as [|[k0 v0] items IH]; intros out out' H k v Hin;
    [by destruct Hin|].
  simpl in H.
  destruct (schema_lookup schema k0) as [check|] eqn:Hlook; [|done].
  destruct (check v0) as [v0'|e] eqn:Hcheck; [|by destruct e].
  destruct Hin as [[= <- <-]|Hin]; [by exists check, v0'|].
  by eapply IH.
Qed.

Lemma validate_items_envelope_throws items :
  forall out e,
    validate_items envelope_schema items out = Throws e ->
    exists m, e = Invalid m.
Proof.
  induction items as [|[k v] items IH]; intros out e H; [done|].
  simpl in H.
  destruct (String.eqb k "type").
  - destruct v; simpl in H; try (injection H as <-; by eexists).
    by eapply IH.
  - destruct (String.eqb k "entity"); simpl in H.
    + by eapply IH.
    + injection H as <-. by eexists.
Qed.


(** An envelope the schema accepts is a dict with a string under
    [type] and something under [entity]. *)
Lemma envelope_accepted message out :
  Schema_dict envelope_schema message = Returns out ->
  exists items t entity,
    message = PDict items
    /\ dict_get items "type" = Some (PStr t)
    /\ dict_get items "entity" = Some entity.
Proof.
  unfold Schema_dict. destruct message as [| | | | |?|items]; try done.
  destruct (validate_items envelope_schema items []) as [out0|] eqn:Hv;
    [|done].
  simpl. destruct (dict_get items "type") as [ty|] eqn:Hty; [|done]. simpl.
  destruct (dict_get items "entity") as [entity|] eqn:Hen; [|done].
  intros _.
  destruct (validate_items_checked _ _ _ _ Hv "type" ty (dict_get_In _ _ _ Hty))
    as (check & v' & [= <-] & Hcheck).
  destruct ty; try done. by eexists _, _, _.
Qed.

(** Every frame falls in one of these classes. *)
Lemma frame_classes libs raw :
  (exists description, rejected libs raw description)
  \/ (exists e, json_loads libs raw = Throws e
                /\ forall m, e <> ValueError m)
  \/ (exists items entity,
        json_loads libs raw = Returns (PDict items)
        /\ dict_get items "type" = Some (PStr "subscribe")
        /\ dict_get items "entity" = Some entity
        /\ ((exists a, Schema_callable (address libs) entity = Returns a)
            \/ (exists e, Schema_callable (address libs) entity = Throws e
                          /\ forall m, e <> Invalid m))).
Proof.
  destruct (json_loads libs raw) as [message|e] eqn:Hl.
  - destruct (Schema_dict envelope_schema message) as [out|e] eqn:Hs.
    + destruct (envelope_accepted message out Hs)
        as (items & t & entity & -> & Ht & He).
      destruct (String.eqb_spec t "subscribe") as [->|Hne].
      * destruct (Schema_callable (address libs) entity) as [a|e] eqn:Hv.
        -- right; right. exists items, entity. eauto 10.
        -- destruct e;
             try (right; right; exists items, entity;
                  split; [done|]; split; [done|]; split; [done|];
                  right; eexists; by split).
           left. eexists. by eapply BadEntity.
      * left. eexists. by eapply NoHandler.
    + assert (exists m, e = Invalid m) as [m ->].
      { unfold Schema_dict in Hs.
        destruct message as [| | | | |?|items];
          try (injection Hs as <-; by eexists).
        destruct (validate_items envelope_schema items []) eqn:Hv.
        - simpl in Hs.
          destruct (dict_get items "type"); simpl in Hs;
            [|injection Hs as <-; by eexists].
          destruct (dict_get items "entity"); [done|].
          injection Hs as <-; by eexists.
        - injection Hs as <-. by eapply validate_items_envelope_throws. }
      left. eexists. by eapply BadEnvelope.
  - destruct e; try (right; left; eexists; by split).
    left. eexists. by apply NotJSON.
Qed.

(** *** Malformed and unexpected frames *)

Lemma _read_cons libs received rest s :
  _read libs (received :: rest) s =
    match read_turn libs received s with
    | (Ok true, s') => _read libs rest s'
    | (Ok false, s') => (Ok tt, s')
    | (Raise e, s') => (Raise e, s')
    | (Running, s') => (Running, s')
    end.
Proof.
  cbn [_read]. unfold bind.
  by destruct (read_turn libs received s) as [[[]|e|] s'].
Qed.

Lemma process_Received libs r ticks s :
  process libs (Received r :: ticks) s =
    match read_turn libs r s with
    | (Ok true, s') => process libs ticks s'
    | (_, s') => finish s'
    end.
Proof. reflexivity. Qed.

Lemma process_Flush libs ticks s :
  process libs (Flush :: ticks) s =
    match write_turn s with
    | (Ok _, s') => process libs ticks s'
    | (Running, _) => process libs ticks s
    | (Raise _, s') => finish s'
    end.
Proof. reflexivity. Qed.



(** C6, amended. An exception out of [_dispatch] that is not
    [MessageError] is logged and the session is not torn down: the
    connection stays in the state it was in, and [_read] and
    [process] go on with the frames behind it. *)
Theorem unexpected_error_is_logged libs raw s e s1 :
  _dispatch libs raw s = (Raise e, s1) ->
  (forall m, e <> MessageError m) ->
  read_turn libs (Some raw) s = (Ok true, logged (LogHandlingError raw e) s)
  /\ log (logged (LogHandlingError raw e) s)
     = log s ++ [LogHandlingError raw e]
  /\ state (logged (LogHandlingError raw e) s) = state s
  /\ (forall rest,
        _read libs (Some raw :: rest) s
        = _read libs rest (logged (LogHandlingError raw e) s))
  /\ (forall ticks,
        process libs (Received (Some raw) :: ticks) s
        = process libs ticks (logged (LogHandlingError raw e) s)).
Proof.
  intros Hd Hne.
  assert (s1 = s) as ->.
  { destruct (_dispatch_session libs raw s) as [[e' H]|[a H]];
      rewrite H in Hd; by injection Hd. }
  pose proof (read_turn_unexpected libs raw s e s Hd Hne) as Hturn.
  split; [exact Hturn|]. split; [done|]. split; [done|].
  split.
  - intros rest. by rewrite _read_cons, Hturn.
  - intros ticks. by rewrite process_Received, Hturn.
Qed.

Lemma plain_libs_deep_frame s :
  _dispatch plain_libs (brackets 1000) s
  = (Raise (Lib (OtherError "RecursionError")), s).
Proof.
  unfold _dispatch, bind, try_except_else, lift.
  replace (json_loads plain_libs (brackets 1000))
    with (@Throws pyval (OtherError "RecursionError"))
    by (vm_compute; reflexivity).
  reflexivity.
Qed.


(** A frame on which [json.loads] hits the recursion limit, then a
    subscription: the connection is still open and the subscription
    is handled. *)
Lemma unexpected_error_is_logged_witness :
  process plain_libs
    [Received (Some (brackets 1000));
     Received (Some (plain_dumps (envelope "subscribe" bob_entity)))]
    first_session
  = (Running,
     mkSession (Client_init (mkWebSocket 0) (mkCache 0)) []
       [LogHandlingError (brackets 1000) (Lib (OtherError "RecursionError"));
        LogNewSubscription (mkAddress "192.0.2.7" 27015)]
       OPEN).
Proof.
  destruct (unexpected_error_is_logged plain_libs (brackets 1000) first_session
              _ _ (plain_libs_deep_frame first_session) ltac:(discriminate))
    as (_ & _ & _ & _ & Hprocess).
  rewrite Hprocess. vm_compute. reflexivity.
Defined.

(** No teardown on that frame: [process] has not returned and the
    connection is not [CLOSED]. *)
Lemma unexpected_error_does_not_close :
  ~ torn_down_on_unexpected plain_libs (brackets 1000) first_session.
Proof.
  intros H.
  destruct (H _ _ (plain_libs_deep_frame first_session) ltac:(discriminate) [])
    as [Hreturned _].
  rewrite process_Received in Hreturned.
  rewrite (read_turn_unexpected _ _ _ _ _ (plain_libs_deep_frame first_session))
    in Hreturned by discriminate.
  discriminate Hreturned.
Qed.

(** *** The send queue *)

Lemma send_appends libs type_ entity s :
  send libs type_ entity s
  = (Ok tt,
     mkSession
       (mkClient (_websocket (client s)) (_cache (client s))
          (_subscriptions (client s))
          (_send_queue (client s) ++ [json_dumps libs (envelope type_ entity)]))
       (sent s) (log s) (state s)).
Proof. reflexivity. Qed.

Lemma write_turn_pipeline s s' :
  write_turn s = (Ok tt, s') -> pipeline s' = pipeline s.
Proof.
  unfold write_turn, pipeline, websocket_send, set_send_queue.
  destruct (_send_queue (client s)) as [|message q]; [done|].
  intros [= <-]. simpl. by rewrite <- app_assoc.
Qed.

Lemma run_pipeline libs actions :
  forall s, pipeline (run libs actions s) = pipeline s ++ frames_sent libs actions.
Proof.
  induction actions as [|[type_ entity|] actions IH]; intros s; simpl.
  - by rewrite app_nil_r.
  - rewrite IH. unfold pipeline. simpl. by rewrite <- !app_assoc.
  - destruct (write_turn s) as [[[]|e|] s'] eqn:Hturn; rewrite IH; try done.
    by rewrite (write_turn_pipeline s s' Hturn).
Qed.

(** The writer, left to itself, writes the whole queue in order and
    then waits. *)
Lemma _write_flushes :
  forall q fuel ws ch subs out lg st,
    length q < fuel ->
    _write fuel (mkSession (mkClient ws ch subs q) out lg st)
    = (Running, mkSession (mkClient ws ch subs []) (out ++ q) lg st).
Proof.
  induction q as [|message q IH]; intros fuel ws ch subs out lg st Hfuel;
    (destruct fuel as [|fuel]; [simpl in Hfuel; lia|]).
  - cbn [_write]. unfold bind, write_turn. simpl. by rewrite app_nil_r.
  - cbn [_write]. unfold bind, write_turn, websocket_send, set_send_queue.
    simpl. rewrite IH by (simpl in Hfuel; lia).
    by rewrite <- app_assoc.
Qed.

(** C7. [send] does one thing: it appends the serialised envelope to
    the send queue.  Whatever the interleaving of [send] calls and
    turns of the writer, the frames written so far followed by the
    frames still queued are the frames of the [send] calls in call
    order; and the writer, given the turns, writes the whole queue in
    that order before it waits again. *)
Theorem send_queue_is_fifo libs :
  (forall type_ entity s,
      send libs type_ entity s
      = (Ok tt,
         mkSession
           (mkClient (_websocket (client s)) (_cache (client s))
              (_subscriptions (client s))
              (_send_queue (client s)
               ++ [json_dumps libs
                     (PDict [("type", PStr type_); ("entity", entity)])]))
           (sent s) (log s) (state s)))
  /\ (forall actions s,
        sent (run libs actions s) ++ _send_queue (client (run libs actions s))
        = sent s ++ _send_queue (client s) ++ frames_sent libs actions)
  /\ (forall actions c,
        let s := run libs actions (new_session c) in
        (_write (S (length (_send_queue (client s)))) s).1 = Running
        /\ sent (_write (S (length (_send_queue (client s)))) s).2
           = _send_queue c ++ frames_sent libs actions
        /\ _send_queue
             (client (_write (S (length (_send_queue (client s)))) s).2)
           = [])
  /\ (forall actions websocket cache,
        let s := run libs actions (new_session (Client_init websocket cache)) in
        sent (_write (S (length (_send_queue (client s)))) s).2
        = frames_sent libs actions).
Proof.
  assert (Hflush : forall actions c,
             let s := run libs actions (new_session c) in
             (_write (S (length (_send_queue (client s)))) s).1 = Running
             /\ sent (_write (S (length (_send_queue (client s)))) s).2
                = _send_queue c ++ frames_sent libs actions
             /\ _send_queue
                  (client (_write (S (length (_send_queue (client s)))) s).2)
                = []).
  { intros actions c. cbv zeta.
    pose proof (run_pipeline libs actions (new_session c)) as H.
    unfold pipeline in H.
    destruct (run libs actions (new_session c)) as [[ws ch subs q] out lg st].
    cbn [client _send_queue sent new_session app] in *.
    rewrite _write_flushes by lia. cbn [fst snd client _send_queue sent].
    by rewrite H. }
  split; [|split; [|split]].
  - intros. apply send_appends.
  - intros actions s. pose proof (run_pipeline libs actions s) as H.
    unfold pipeline in H. by rewrite H, <- app_assoc.
  - exact Hflush.
  - intros actions websocket cache.
    exact (proj1 (proj2 (Hflush actions (Client_init websocket cache)))).
Qed.

(** Three [send] calls around one turn of the writer. *)
Lemma send_queue_is_fifo_witness :
  let s := run plain_libs
             [CallSend "error" (PStr "first"); WriterTurn;
              CallSend "error" (PStr "second"); CallSend "status" PNone]
             first_session in
  sent s ++ _send_queue (client s)
  = [plain_dumps (envelope "error" (PStr "first"));
     plain_dumps (envelope "error" (PStr "second"));
     plain_dumps (envelope "status" PNone)].
Proof.
  exact (proj1 (proj2 (send_queue_is_fifo plain_libs)) _ first_session).
Defined.

(** *** One client for each accepted connection *)

Lemma read_turn_connection libs r s :
  same_connection s (read_turn libs r s).2.
Proof.
  destruct r as [raw|]; [|done].
  unfold read_turn, bind, try_except_else.
  destruct (_dispatch_session libs raw s) as [[e ->]|[a ->]]; [|done].
  by destruct e.
Qed.

Lemma write_turn_connection s : same_connection s (write_turn s).2.
Proof.
  unfold write_turn. by destruct (_send_queue (client s)).
Qed.

Lemma process_connection libs ticks :
  forall s, same_connection s (process libs ticks s).2.
Proof.
  induction ticks as [|[r|] ticks IH]; intros s; [done| |].
  - rewrite process_Received.
    pose proof (read_turn_connection libs r s) as Hturn.
    destruct (read_turn libs r s) as [[[]|e|] s']; simpl in *; try done.
    destruct (IH s') as [Hw Hc]. destruct Hturn as [Hw' Hc'].
    split; congruence.
  - rewrite process_Flush.
    pose proof (write_turn_connection s) as Hturn.
    destruct (write_turn s) as [[[]|e|] s']; simpl in *; try done;
      try apply IH.
    destruct (IH s') as [Hw Hc]. destruct Hturn as [Hw' Hc'].
    split; congruence.
Qed.

(** C9. On a path other than [PATH] the call logs the error and
    returns: no client is built and nothing is run.  On [PATH] it
    builds one client, new (nothing subscribed, nothing queued) and
    holding the websocket of this connection and the cache of the
    service, and runs [process] on it; the session it ends with
    still holds the same websocket and cache. *)
Theorem service_call_checks_path libs self websocket path ticks :
  PATH = "/"
  /\ (path <> PATH ->
      Service_call libs self websocket path ticks
      = Dropped [LogWrongPath path])
  /\ (path = PATH ->
      exists o final,
        Service_call libs self websocket path ticks
        = Handled (mkClient websocket (service_cache self) [] []) o final
        /\ (o, final)
           = (process libs ticks ;;; logging LogConnectionClosed)
               (mkSession (mkClient websocket (service_cache self) [] [])
                          [] [] OPEN)
        /\ _websocket (client final) = websocket
        /\ _cache (client final) = service_cache self).
Proof.
  split; [done|]. unfold Service_call. split.
  - intros Hne. by destruct (String.eqb_spec path PATH).
  - intros ->. simpl. unfold bind.
    pose proof (process_connection libs ticks
                  (new_session (Client_init websocket (service_cache self))))
      as [Hw Hc].
    destruct (process libs ticks _) as [[[]|e|] s'] eqn:Hp;
      simpl in *; eexists _, _; by repeat split.
Qed.

(** A connection on [/status] and one on [/], each closed by the
    peer at once. *)
Lemma service_call_checks_path_witness :
  Service_call plain_libs (mkService (mkCache 0)) (mkWebSocket 3) "/status"
               [Received None]
  = Dropped [LogWrongPath "/status"]
  /\ exists o final,
       Service_call plain_libs (mkService (mkCache 0)) (mkWebSocket 3) "/"
                    [Received None]
       = Handled (mkClient (mkWebSocket 3) (mkCache 0) [] []) o final
       /\ o = Ok tt /\ state final = CLOSED.
Proof.
  destruct (service_call_checks_path plain_libs (mkService (mkCache 0))
              (mkWebSocket 3) "/status" [Received None]) as (_ & Hdrop & _).
  destruct (service_call_checks_path plain_libs (mkService (mkCache 0))
              (mkWebSocket 3) "/" [Received None]) as (_ & _ & Hserve).
  split; [apply Hdrop; discriminate|].
  destruct (Hserve eq_refl) as (o & final & Hcall & Hrun & _).
  exists o, final. split; [exact Hcall|].
  injection Hrun as -> ->. split; reflexivity.
Defined.

(** *** The order of the arguments of [Address] *)

(** C10. [address] hands the values of the validated dict to
    [Address] in the order of the keys of the entity.  For a string
    [x] and an integer [y]: with [ip] first the schema accepts the
    entity and the call is [Address(x, y)]; with [port] first the
    schema accepts it just the same and the call is [Address(y, x)],
    the two arguments swapped. *)
Theorem address_passes_values_in_key_order libs (x y : pyval) :
  v_str x = Returns x ->
  v_int y = Returns y ->
  Schema_dict address_schema (PDict [("ip", x); ("port", y)])
  = Returns [("ip", x); ("port", y)]
  /\ Schema_dict address_schema (PDict [("port", y); ("ip", x)])
     = Returns [("port", y); ("ip", x)]
  /\ address libs (PDict [("ip", x); ("port", y)]) = Address_new libs x y
  /\ address libs (PDict [("port", y); ("ip", x)]) = Address_new libs y x
  /\ x <> y.
Proof.
  intros Hx Hy.
  assert (Hip : Schema_dict address_schema (PDict [("ip", x); ("port", y)])
                = Returns [("ip", x); ("port", y)]).
  { unfold Schema_dict. simpl. by rewrite Hx, Hy. }
  assert (Hport : Schema_dict address_schema (PDict [("port", y); ("ip", x)])
                  = Returns [("port", y); ("ip", x)]).
  { unfold Schema_dict. simpl. by rewrite Hy, Hx. }
  split; [exact Hip|]. split; [exact Hport|].
  unfold address. rewrite Hip, Hport. simpl.
  split; [done|]. split; [done|].
  intros ->. by destruct y.
Qed.

(** The same address, [ip] first and [port] first. *)
Lemma address_passes_values_in_key_order_witness :
  address plain_libs bob_entity = Returns (mkAddress "192.0.2.7" 27015)
  /\ address plain_libs bob_entity_port_first
     = Throws (ValueError "not an address").
Proof.
  destruct (address_passes_values_in_key_order plain_libs
              (PStr "192.0.2.7") (PInt 27015) eq_refl eq_refl)
    as (_ & _ & Hip & Hport & _).
  unfold bob_entity, bob_entity_port_first. rewrite Hip, Hport.
  split; reflexivity.
Defined.

End websocket_facts.

(** ** More facts about serverstf/poll.py *)

Module poll_more_facts.
Import cache poll poll_once poll_facts.

(** *** [_query_server] *)

Lemma _query_server_fails env a w rq e :
  sub_query_failure env a = Some (rq, e) ->
  _query_server env a w
  = (Raise (query_server_raises e a), add_trace w (queries_through a rq)).
Proof.
  unfold sub_query_failure. intros H.
  unfold _query_server, get_info, get_players, get_rules, query_call,
    try_except_else, bind, emit, lift, ret, raise, add_trace; simpl.
  destruct (a2s_info env (ip a, port a)) as [info|e1]; simpl.
  - destruct (a2s_players env (ip a, port a)) as [presp|e2]; simpl.
    + destruct (a2s_rules env (ip a, port a)) as [rules|e3]; simpl;
        [discriminate|].
      injection H as <- <-. rewrite <- !app_assoc; simpl.
      unfold query_server_raises; by destruct e3.
    + injection H as <- <-. rewrite <- !app_assoc; simpl.
      unfold query_server_raises; by destruct e2.
  - injection H as <- <-. unfold query_server_raises; by destruct e1.
Qed.

Lemma _query_server_answers env a w info presp rules :
  a2s_info env (ip a, port a) = Returns info ->
  a2s_players env (ip a, port a) = Returns presp ->
  a2s_rules env (ip a, port a) = Returns rules ->
  _query_server env a w
  = (Ok (info, presp, rules), add_trace w (queries_through a GetRules)).
Proof.
  intros Hi Hp Hr.
  unfold _query_server, get_info, get_players, get_rules, query_call,
    try_except_else, bind, emit, lift, ret, raise, add_trace; simpl.
  rewrite Hi; simpl. rewrite Hp; simpl. rewrite Hr; simpl.
  by rewrite <- !app_assoc.
Qed.

(** X1. [_query_server] asks info, players and rules in that order
    and stops at the first one that throws: the ones behind it are
    never asked.  An exception that is not one of the three it names
    leaves it unchanged. *)
Theorem query_server_stops_at_first_failure env a w :
  (forall e,
      a2s_info env (ip a, port a) = Throws e ->
      _query_server env a w
      = (Raise (query_server_raises e a),
         add_trace w [EvQuery (mkServerQuerier (ip a, port a) 5) GetInfo]))
  /\ (forall info e,
        a2s_info env (ip a, port a) = Returns info ->
        a2s_players env (ip a, port a) = Throws e ->
        _query_server env a w
        = (Raise (query_server_raises e a),
           add_trace w
             [EvQuery (mkServerQuerier (ip a, port a) 5) GetInfo;
              EvQuery (mkServerQuerier (ip a, port a) 5) GetPlayers]))
  /\ (forall info presp e,
        a2s_info env (ip a, port a) = Returns info ->
        a2s_players env (ip a, port a) = Returns presp ->
        a2s_rules env (ip a, port a) = Throws e ->
        _query_server env a w
        = (Raise (query_server_raises e a),
           add_trace w
             [EvQuery (mkServerQuerier (ip a, port a) 5) GetInfo;
              EvQuery (mkServerQuerier (ip a, port a) 5) GetPlayers;
              EvQuery (mkServerQuerier (ip a, port a) 5) GetRules]))
  /\ (forall info presp rules,
        a2s_info env (ip a, port a) = Returns info ->
        a2s_players env (ip a, port a) = Returns presp ->
        a2s_rules env (ip a, port a) = Returns rules ->
        _query_server env a w
        = (Ok (info, presp, rules),
           add_trace w
             [EvQuery (mkServerQuerier (ip a, port a) 5) GetInfo;
              EvQuery (mkServerQuerier (ip a, port a) 5) GetPlayers;
              EvQuery (mkServerQuerier (ip a, port a) 5) GetRules]))
  /\ (forall e,
        e <> NoResponseError -> e <> NotImplementedError ->
        e <> BrokenMessageError ->
        query_server_raises e a = Lib e).
Proof.
  split; [|split; [|split; [|split]]].
  - intros e Hi. apply (_query_server_fails env a w GetInfo e).
    unfold sub_query_failure. by rewrite Hi.
  - intros info e Hi Hp. apply (_query_server_fails env a w GetPlayers e).
    unfold sub_query_failure. by rewrite Hi, Hp.
  - intros info presp e Hi Hp Hr.
    apply (_query_server_fails env a w GetRules e).
    unfold sub_query_failure. by rewrite Hi, Hp, Hr.
  - intros info presp rules Hi Hp Hr. by apply _query_server_answers.
  - intros e H1 H2 H3. unfold query_server_raises. by destruct e.
Qed.

(** A server whose players query is broken. *)
Lemma query_server_stops_at_first_failure_witness :
  _query_server broken_players_env bob_address empty_world
  = (Raise (PollError "Seemingly broken response from 192.0.2.7:27015"),
     mkWorld ∅ [] 0 0
       [EvQuery (mkServerQuerier ("192.0.2.7", 27015%Z) 5) GetInfo;
        EvQuery (mkServerQuerier ("192.0.2.7", 27015%Z) 5) GetPlayers]).
Proof.
  exact (proj1 (proj2 (query_server_stops_at_first_failure broken_players_env
                         bob_address empty_world))
           bob_info BrokenMessageError eq_refl eq_refl).
Defined.

(** *** What one poll and one turn of the loop body can do *)

Lemma polled_queries a rq : polled (queries_through a rq) = [a].
Proof. destruct a, rq; reflexivity. Qed.

Lemma polled_app evs evs' : polled (evs ++ evs') = polled evs ++ polled evs'.
Proof. unfold polled. apply omap_app. Qed.

(** A poll returns the status assembled for its address, or raises
    [PollError], or raises what a collaborator threw; it adds its own
    events and changes nothing else. *)
Lemma poll_outcome env a w :
  exists evs,
    (poll env a w).2 = add_trace w evs
    /\ polled evs = [a]
    /\ Forall poll_event evs
    /\ ((exists info rows location tgs,
           (poll env a w).1 = Ok (assembled a info rows location tgs))
        \/ (exists k,
             (poll env a w).1 = Raise (PollError (poll_failure_message k a)))
        \/ (exists l, (poll env a w).1 = Raise (Lib l))).
Proof.
  destruct (sub_query_failure env a) as [[rq e]|] eqn:Hfail.
  - rewrite (poll_sub_query_fails env a w rq e Hfail).
    exists (queries_through a rq). split; [done|].
    split; [apply polled_queries|]. split; [destruct rq; repeat constructor|].
    right. unfold query_server_raises. simpl.
    destruct (poll_failure_of e) as [k|]; [left|right]; by eexists.
  - destruct (sub_query_failure_None env a Hfail)
      as (info & presp & rules & Hi & Hp & Hr).
    rewrite (poll_sub_queries_answer env a w info presp rules Hi Hp Hr).
    destruct (tagger_evaluate env info presp rules) as [tgs|e];
      [destruct (geoip_city env (ip a)) as [location|e];
       [destruct (scores_loop env (response_players presp) []) as [rows|e]|]|];
      eexists; (split; [reflexivity|]);
      (split; [by rewrite polled_app, polled_queries|]);
      (split; [repeat constructor|]); simpl.
    + left. by eexists _, _, _, _.
    + right; right. by eexists.
    + right; right. by eexists.
    + right; right. by eexists.
Qed.

Lemma set_events_app evs evs' :
  List.filter is_set_event (evs ++ evs')
  = List.filter is_set_event evs ++ List.filter is_set_event evs'.
Proof. apply List.filter_app. Qed.

Lemma set_events_poll evs :
  Forall poll_event evs -> List.filter is_set_event evs = [].
Proof.
  induction 1 as [|ev evs Hev _ IH]; [done|]. simpl. rewrite IH.
  by destruct ev.
Qed.

Lemma watch_body_outcome env wc a w :
  exists evs,
    trace (watch_body env wc a w).2 = trace w ++ evs
    /\ polled evs = [a]
    /\ pop_events evs = []
    /\ interest_queue (watch_body env wc a w).2 = interest_queue w
    /\ pops (watch_body env wc a w).2 = pops w
    /\ next_session (watch_body env wc a w).2 = next_session w
    /\ body_result wc a w (watch_body env wc a w).1
                   (watch_body env wc a w).2 evs.
Proof.
  destruct (poll_outcome env a w) as (evs & Hw & Hpolled & Hevs & Hcases).
  destruct (poll env a w) as [o w1] eqn:Hpoll. simpl in *. subst w1.
  destruct Hcases as [(info & presp & loc & tgs & ->)|[[k ->]|[l ->]]].
  - rewrite (watch_body_Ok _ _ _ _ _ _ Hpoll). unfold cache_set; simpl.
    exists (evs ++ [EvSet wc (assembled a info presp loc tgs)]).
    split; [by rewrite <- app_assoc|].
    split; [by rewrite polled_app, Hpolled|].
    split; [by rewrite pop_events_app, pop_events_poll|].
    do 3 (split; [done|]).
    apply (BodyWrote wc a w (assembled a info presp loc tgs)); try done.
    by rewrite set_events_app, set_events_poll.
  - rewrite (watch_body_PollError _ _ _ _ _ _ Hpoll). simpl.
    exists (evs ++ [EvLogError a (poll_failure_message k a)]).
    split; [by rewrite <- app_assoc|].
    split; [by rewrite polled_app, Hpolled|].
    split; [by rewrite pop_events_app, pop_events_poll|].
    do 3 (split; [done|]).
    apply BodySkipped; [done|]. by rewrite set_events_app, set_events_poll.
  - rewrite (watch_body_other _ _ _ _ _ _ Hpoll) by done. simpl.
    exists evs. split; [done|]. split; [done|].
    split; [by apply pop_events_poll|]. do 3 (split; [done|]).
    apply BodyRaised; [done|]. by apply set_events_poll.
Qed.

(** X2. One turn of the loop body touches the record of the address
    it polled and no other: the record of every other address is
    what it was.  When the poll returns, the status it returns is
    for the polled address, has no interest set, and is what the
    cache holds for that address afterwards. *)
Theorem watch_body_replaces_one_record env wc a w :
  (forall b, b <> a ->
      statuses (watch_body env wc a w).2 !! b = statuses w !! b)
  /\ (forall st w1,
        poll env a w = (Ok st, w1) ->
        address st = a
        /\ interest st = None
        /\ statuses (watch_body env wc a w).2 !! a = Some st)
  /\ interest_queue (watch_body env wc a w).2 = interest_queue w.
Proof.
  destruct (watch_body_outcome env wc a w)
    as (evs & _ & _ & _ & Hq & _ & _ & Hres).
  split; [|split; [|exact Hq]].
  - intros b Hb.
    destruct Hres as [st w' evs' _ _ -> _|w' evs' -> _|l w' evs' -> _];
      [|done|done].
    by rewrite lookup_insert_ne.
  - intros st w1 Hpoll.
    destruct (poll_outcome env a w) as (_ & _ & _ & _ & Hcases).
    rewrite Hpoll in Hcases. simpl in Hcases.
    destruct Hcases as [(info & presp & loc & tgs & [= ->])|[[k [=]]|[l [=]]]].
    split; [done|]. split; [done|].
    rewrite (watch_body_Ok env wc a w _ w1 Hpoll). simpl.
    apply lookup_insert_eq.
Qed.

(** The loop body on Bob's server, in a cache that knows two. *)
Lemma watch_body_replaces_one_record_witness :
  statuses (watch_body bob_env (mkCache 1) bob_address cached_world).2
    !! other_address
  = Some (status_at other_address)
  /\ statuses (watch_body bob_env (mkCache 1) bob_address cached_world).2
       !! bob_address
     = Some (status_at bob_address).
Proof.
  destruct (watch_body_replaces_one_record bob_env (mkCache 1) bob_address
              cached_world) as (Hother & Hself & _).
  split.
  - rewrite (Hother other_address ltac:(discriminate)). reflexivity.
  - exact (proj2 (proj2 (Hself _ _ eq_refl))).
Defined.

(** *** Exceptions the loop does not catch *)

Lemma for_each_body_raises fuel env it it' body a w w1 e w2 :
  next env it w = (Ok (Some (a, it')), w1) ->
  body a w1 = (Raise e, w2) ->
  for_each (S fuel) env it body w = (Raise e, w2).
Proof. intros Hnext Hbody. by rewrite for_each_S, Hnext, Hbody. Qed.

Lemma watch_body_passes_on env wc a w l w1 :
  poll env a w = (Raise (Lib l), w1) ->
  watch_body env wc a w = (Raise (Lib l), w1)
  /\ statuses w1 = statuses w.
Proof.
  intros Hpoll. split; [by apply watch_body_other|].
  destruct (poll_world env a w) as (evs & Hw & _).
  rewrite Hpoll in Hw. simpl in Hw. by subst w1.
Qed.

Lemma _watch_raises_at_first_address fuel env r wc a q w l :
  interest_queue w ++ producer env (pops w) = a :: q ->
  (forall w0, (poll env a w0).1 = Raise (Lib l)) ->
  exists w' evs,
    _watch (S (S fuel)) env r wc false w = (Raise (Lib l), w')
    /\ statuses w' = statuses w
    /\ trace w' = trace w ++ EvPop r a :: evs
    /\ Forall poll_event evs.
Proof.
  intros Hq Hpoll.
  pose proof (next_interest_pop env r w a q Hq) as Hnext.
  set (w1 := mkWorld _ _ _ _ _) in Hnext.
  destruct (poll_world env a w1) as (evs & Hw & Hevs).
  destruct (poll env a w1) as [o w2] eqn:Hp.
  pose proof (Hpoll w1) as Ho. rewrite Hp in Ho. simpl in Ho, Hw.
  subst o w2.
  exists (add_trace w1 evs), evs.
  rewrite _watch_S, watch_pass_interest.
  unfold _interest_queue_iterator.
  rewrite (for_each_body_raises fuel env _ _ _ a w w1 (Lib l)
             (add_trace w1 evs) Hnext
             (proj1 (watch_body_passes_on _ _ _ _ _ _ Hp))).
  split; [done|]. split; [done|]. split; [|done].
  simpl. by rewrite <- app_assoc.
Qed.

(** X3. An exception out of [poll] that is not [PollError] (a GeoIP
    lookup or a tagger that fails, a transport error of another
    class) is not caught by [_watch]: the loop body raises it, the
    [for] loop raises it, and [_watch] ends with it at the first
    address whose poll fails so.  No status is written for that
    address. *)
Theorem watch_does_not_catch_other_errors env r wc :
  (forall a w l w1,
      poll env a w = (Raise (Lib l), w1) ->
      watch_body env wc a w = (Raise (Lib l), w1)
      /\ statuses w1 = statuses w)
  /\ (forall fuel it it' a w w1 l w2,
        next env it w = (Ok (Some (a, it')), w1) ->
        poll env a w1 = (Raise (Lib l), w2) ->
        for_each (S fuel) env it (watch_body env wc) w = (Raise (Lib l), w2))
  /\ (forall fuel a q w l,
        interest_queue w ++ producer env (pops w) = a :: q ->
        (forall w0, (poll env a w0).1 = Raise (Lib l)) ->
        exists w' evs,
          _watch (S (S fuel)) env r wc false w = (Raise (Lib l), w')
          /\ statuses w' = statuses w
          /\ trace w' = trace w ++ EvPop r a :: evs
          /\ Forall poll_event evs).
Proof.
  split; [intros a w l w1; apply watch_body_passes_on|]. split.
  - intros fuel it it' a w w1 l w2 Hnext Hpoll.
    eapply for_each_body_raises; [exact Hnext|].
    by apply watch_body_passes_on.
  - intros fuel a q w l. apply _watch_raises_at_first_address.
Qed.

(** An address the GeoIP database does not know, first in the
    queue. *)
Lemma watch_does_not_catch_other_errors_witness :
  (_watch 2 no_city_env (mkCache 0) (mkCache 1) false queued_world).1
  = Raise (Lib (OtherError "AddressNotFoundError")).
Proof.
  destruct (watch_does_not_catch_other_errors no_city_env (mkCache 0)
              (mkCache 1)) as (_ & _ & Hwatch).
  destruct (Hwatch 0 bob_address [] queued_world
              (OtherError "AddressNotFoundError") eq_refl
              (fun w0 => eq_refl))
    as (w' & evs & Hrun & _).
  by rewrite Hrun.
Defined.

(** *** The exhaustive mode *)

Lemma all_addresses_dom w a : a ∈ all_addresses w <-> a ∈ dom (statuses w).
Proof.
  unfold all_addresses. rewrite list_elem_of_fmap, elem_of_dom. split.
  - intros ([a' st] & -> & Hin). apply elem_of_map_to_list in Hin. by eexists.
  - intros [st Hst]. exists (a, st). split; [done|].
    by apply elem_of_map_to_list.
Qed.

Lemma watch_body_settled env wc a w :
  polls_settle env ->
  a ∈ dom (statuses w) ->
  exists w' evs,
    watch_body env wc a w = (Ok tt, w')
    /\ trace w' = trace w ++ evs
    /\ polled evs = [a]
    /\ pop_events evs = []
    /\ interest_queue w' = interest_queue w
    /\ pops w' = pops w
    /\ dom (statuses w') = dom (statuses w).
Proof.
  intros Hsettle Ha.
  destruct (watch_body_outcome env wc a w)
    as (evs & Ht & Hp & Hpop & Hq & Hn & _ & Hres).
  pose proof (quiet_body_returns _ a w (watch_body_quiet env wc Hsettle)) as Hok.
  destruct (watch_body env wc a w) as [o w'] eqn:Hbody. simpl in *. subst o.
  exists w', evs. do 6 (split; [done|]).
  inversion Hres as [st w0 evs0 Ha1 Ha2 Hst Ha3|w0 evs0 Hst Ha1|];
    subst; rewrite Hst; [|done].
  rewrite dom_insert_L. apply subseteq_union_1_L.
  by apply singleton_subseteq_l.
Qed.

Lemma for_each_all env wc :
  polls_settle env ->
  forall l fuel w,
    length l < fuel ->
    (forall a, a ∈ l -> a ∈ dom (statuses w)) ->
    exists w' evs,
      for_each fuel env (AllIterator l) (watch_body env wc) w = (Ok tt, w')
      /\ trace w' = trace w ++ evs
      /\ polled evs = l
      /\ pop_events evs = []
      /\ interest_queue w' = interest_queue w
      /\ pops w' = pops w
      /\ dom (statuses w') = dom (statuses w).
Proof.
  intros Hsettle.
  induction l as [|a l IH]; intros fuel w Hfuel Hdom;
    (destruct fuel as [|fuel]; [simpl in Hfuel; lia|]); rewrite for_each_S.
  - exists w, []. simpl. by rewrite app_nil_r.
  - simpl.
    destruct (watch_body_settled env wc a w Hsettle)
      as (w1 & evs1 & Hrun & Ht & Hp & Hpop & Hq & Hn & Hd).
    { apply Hdom. by left. }
    rewrite Hrun.
    destruct (IH fuel w1) as (w2 & evs2 & Hrun2 & Ht2 & Hp2 & Hpop2 & Hq2 & Hn2 & Hd2).
    { simpl in Hfuel. lia. }
    { intros b Hb. rewrite Hd. apply Hdom. by right. }
    exists w2, (evs1 ++ evs2). split; [exact Hrun2|].
    split; [by rewrite Ht2, Ht, <- app_assoc|].
    split; [by rewrite polled_app, Hp, Hp2|].
    split; [by rewrite pop_events_app, Hpop, Hpop2|].
    split; [congruence|]. split; [congruence|]. congruence.
Qed.

(** X4. In the exhaustive mode one turn of [_watch] polls every
    address the cache holds, each once, in the order the iterator
    gives them.  It never pops the interest queue, and while polls
    fail with [PollError] only, it ends with the same addresses
    cached as before. *)
Theorem exhaustive_pass_polls_the_cache env r wc fuel w :
  polls_settle env ->
  length (all_addresses w) < fuel ->
  exists w' evs,
    watch_pass fuel env r wc true w = (Ok tt, w')
    /\ trace w' = trace w ++ EvAllIterator r :: evs
    /\ polled evs = all_addresses w
    /\ NoDup (all_addresses w)
    /\ (forall a, a ∈ all_addresses w <-> a ∈ dom (statuses w))
    /\ pop_events evs = []
    /\ interest_queue w' = interest_queue w
    /\ pops w' = pops w
    /\ dom (statuses w') = dom (statuses w).
Proof.
  intros Hsettle Hfuel. rewrite watch_pass_all.
  destruct (for_each_all env wc Hsettle (all_addresses w) fuel
              (add_trace w [EvAllIterator r]) Hfuel)
    as (w' & evs & Hrun & Ht & Hp & Hpop & Hq & Hn & Hd).
  { intros a Ha. by apply all_addresses_dom. }
  exists w', evs. split; [exact Hrun|].
  split; [rewrite Ht; simpl; by rewrite <- app_assoc|].
  split; [done|].
  split; [apply NoDup_fst_map_to_list|].
  split; [apply all_addresses_dom|]. done.
Qed.

(** One exhaustive turn over a cache that knows two servers. *)
Lemma exhaustive_pass_polls_the_cache_witness :
  exists w' evs,
    watch_pass 3 bob_env (mkCache 0) (mkCache 1) true cached_world
    = (Ok tt, w')
    /\ length (polled evs) = 2
    /\ dom (statuses w') = dom (statuses cached_world).
Proof.
  destruct (exhaustive_pass_polls_the_cache bob_env (mkCache 0) (mkCache 1) 3
              cached_world bob_env_settles ltac:(vm_compute; lia))
    as (w' & evs & Hrun & _ & Hp & _ & _ & _ & _ & _ & Hd).
  exists w', evs. split; [exact Hrun|]. split; [|exact Hd].
  rewrite Hp. vm_compute. reflexivity.
Defined.

(** *** How the poller can end *)

Lemma watch_body_ends env wc a w :
  (watch_body env wc a w).1 = Ok tt
  \/ exists l, (watch_body env wc a w).1 = Raise (Lib l).
Proof.
  destruct (watch_body_outcome env wc a w) as (evs & _ & _ & _ & _ & _ & _ & H).
  destruct H; [by left|by left|right; by eexists].
Qed.

Lemma for_each_ends env wc :
  forall fuel it w,
    (for_each fuel env it (watch_body env wc) w).1 = Ok tt
    \/ (for_each fuel env it (watch_body env wc) w).1 = Running
    \/ exists l, (for_each fuel env it (watch_body env wc) w).1 = Raise (Lib l).
Proof.
  induction fuel as [|fuel IH]; intros it w; [by right; left|].
  rewrite for_each_S.
  destruct (next_not_raise env it w) as (step & w1 & ->).
  destruct step as [[a it']|]; [|by left].
  destruct (watch_body_ends env wc a w1) as [H|[l H]];
    destruct (watch_body env wc a w1) as [o w2]; simpl in H; subst o.
  - apply IH.
  - right; right. by eexists.
Qed.

Lemma _watch_ends env r wc all_ :
  forall fuel w,
    (_watch fuel env r wc all_ w).1 = Running
    \/ exists l, (_watch fuel env r wc all_ w).1 = Raise (Lib l).
Proof.
  induction fuel as [|fuel IH]; intros w; [by left|].
  rewrite _watch_S.
  assert (Hpass : (watch_pass fuel env r wc all_ w).1 = Ok tt
                  \/ (watch_pass fuel env r wc all_ w).1 = Running
                  \/ exists l, (watch_pass fuel env r wc all_ w).1
                               = Raise (Lib l)).
  { destruct all_; [rewrite watch_pass_all|rewrite watch_pass_interest];
      apply for_each_ends. }
  destruct (watch_pass fuel env r wc all_ w) as [o w1]. simpl in Hpass.
  destruct Hpass as [->|[->|[l ->]]]; [apply IH|by left|right; by eexists].
Qed.

(** X5. [_poller_main] never returns and never raises [FatalError]:
    whatever the collaborators do, it is still running, or it has
    raised what a collaborator threw, or it has raised
    [UnboundLocalError]; the last is how every failure to open the
    database ends, whatever its class.  So the process boundary
    never sees success or the fatal status from the poller. *)
Theorem poller_main_never_fatal fuel env args w :
  ((_poller_main fuel env args w).1 = Running
   \/ (_poller_main fuel env args w).1 = Raise (UnboundLocalError "geoip")
   \/ exists l, (_poller_main fuel env args w).1 = Raise (Lib l))
  /\ (forall e,
        geoip_open env (args_geoip args) = Throws e ->
        (_poller_main fuel env args w).1 = Raise (UnboundLocalError "geoip"))
  /\ (forall msg, (_poller_main fuel env args w).1 <> Raise (FatalError msg))
  /\ (_poller_main fuel env args w).1 <> Ok tt
  /\ main_exit_status (_poller_main fuel env args w).1 <> Some FATAL_ERROR
  /\ main_exit_status (_poller_main fuel env args w).1 <> Some OK.
Proof.
  assert (Hends : (_poller_main fuel env args w).1 = Running
                  \/ (_poller_main fuel env args w).1
                     = Raise (UnboundLocalError "geoip")
                  \/ exists l, (_poller_main fuel env args w).1
                               = Raise (Lib l)).
  { destruct (geoip_open env (args_geoip args)) as [[]|e] eqn:Hopen.
    - rewrite (_poller_main_opened fuel env args w Hopen). cbv zeta.
      match goal with |- context [_watch fuel env ?r ?wc ?all_ ?w0] =>
        destruct (_watch_ends env r wc all_ fuel w0) as [H|[l H]];
        destruct (_watch fuel env r wc all_ w0) as [o w1]
      end; simpl in H; subst o; simpl.
      + by left.
      + right; right. by eexists.
    - rewrite (_poller_main_not_opened fuel env args w e Hopen).
      right; by left. }
  split; [exact Hends|]. split.
  { intros e Hopen. by rewrite (_poller_main_not_opened fuel env args w e Hopen). }
  destruct Hends as [->|[->|[l ->]]]; by repeat split.
Qed.

(** *** Cleaning up after an exception *)

(** X6. When the poll of the first queued address fails with an
    exception [_watch] does not catch, [_poller_main] ends with that
    exception, and on the way out it closes the write connection,
    then the read connection, then the GeoIP database.  No status
    has been written. *)
Theorem poller_main_cleans_up fuel env args w a q l :
  geoip_open env (args_geoip args) = Returns tt ->
  args_all args = false ->
  interest_queue w ++ producer env (pops w) = a :: q ->
  (forall w0, (poll env a w0).1 = Raise (Lib l)) ->
  exists w' evs,
    _poller_main (S (S fuel)) env args w = (Raise (Lib l), w')
    /\ statuses w' = statuses w
    /\ trace w'
       = trace w
         ++ [EvGeoipOpen (args_geoip args);
             EvConnect (mkCache (next_session w));
             EvConnect (mkCache (S (next_session w)));
             EvPop (mkCache (next_session w)) a]
         ++ evs
         ++ [EvDisconnect (mkCache (S (next_session w)));
             EvDisconnect (mkCache (next_session w));
             EvGeoipClose]
    /\ Forall poll_event evs
    /\ main_exit_status (_poller_main (S (S fuel)) env args w).1
       = Some UNEXPECTED_ERROR.
Proof.
  intros Hopen Hall Hq Hpoll.
  rewrite (_poller_main_opened (S (S fuel)) env args w Hopen). cbv zeta.
  rewrite Hall.
  set (r := mkCache (next_session w)). set (wc := mkCache (S (next_session w))).
  set (w0 := mkWorld _ _ _ _ _).
  destruct (_watch_raises_at_first_address fuel env r wc a q w0 l Hq Hpoll)
    as (w1 & evs & Hrun & Hst & Ht & Hevs).
  rewrite Hrun. exists (add_trace w1 [EvDisconnect wc; EvDisconnect r; EvGeoipClose]), evs.
  split; [done|]. split; [done|]. split; [|done].
  simpl. rewrite Ht. simpl. rewrite <- !app_assoc. reflexivity.
Qed.

(** An address the GeoIP database does not know: the connections
    and the database are closed on the way out. *)
Lemma poller_main_cleans_up_witness :
  exists w' evs,
    _poller_main 2 no_city_env (mkArgs "GeoLite2-City.mmdb" "//localhost" false)
                 queued_world
    = (Raise (Lib (OtherError "AddressNotFoundError")), w')
    /\ trace w'
       = [EvGeoipOpen "GeoLite2-City.mmdb"; EvConnect (mkCache 0);
          EvConnect (mkCache 1); EvPop (mkCache 0) bob_address]
         ++ evs
         ++ [EvDisconnect (mkCache 1); EvDisconnect (mkCache 0); EvGeoipClose].
Proof.
  destruct (poller_main_cleans_up 0 no_city_env
              (mkArgs "GeoLite2-City.mmdb" "//localhost" false) queued_world
              bob_address [] (OtherError "AddressNotFoundError")
              eq_refl eq_refl eq_refl (fun w0 => eq_refl))
    as (w' & evs & Hrun & _ & Ht & _).
  exists w', evs. split; [exact Hrun|exact Ht].
Defined.

(** *** An iterator that is never exhausted *)

(** X7. While the producer pushes at least one address before every
    pop, the [for] loop over [_interest_queue_iterator] never comes
    to an end: however long it runs, it has not returned, it has
    met no empty signal, and it has popped once per turn. *)
Theorem interest_iterator_can_go_on_forever env r body :
  quiet_body body ->
  (forall n, producer env n <> []) ->
  forall fuel w,
    exists w' evs,
      for_each fuel env (_interest_queue_iterator r) body w = (Running, w')
      /\ trace w' = trace w ++ evs
      /\ pops w' = pops w + fuel
      /\ length (pop_events evs) = fuel
      /\ ~ In (EvEmptyQueue r) evs.
Proof.
  intros Hbody Hbusy. unfold _interest_queue_iterator.
  induction fuel as [|fuel IH]; intros w.
  - exists w, []. simpl. rewrite app_nil_r.
    split; [done|]. split; [done|]. split; [lia|]. split; [done|]. by intros [].
  - rewrite for_each_S.
    destruct (interest_queue w ++ producer env (pops w)) as [|a q] eqn:Hq.
    { apply app_eq_nil in Hq as [_ Hq]. by destruct (Hbusy (pops w)). }
    rewrite (next_interest_pop env r w a q Hq).
    set (w1 := mkWorld _ _ _ _ _).
    destruct (Hbody a w1) as (w2 & evs & Hrun & _ & Hpops & Htrace & Hquiet).
    rewrite Hrun.
    destruct (IH w2) as (w' & evs' & Hloop & Htrace' & Hcount & Hlen & Hno).
    exists w', ([EvPop r a] ++ evs ++ evs'). split; [exact Hloop|].
    split; [rewrite Htrace', Htrace; simpl; by rewrite <- !app_assoc|].
    split; [rewrite Hcount, Hpops; simpl; lia|].
    split.
    + rewrite !pop_events_app, Hquiet. simpl. by rewrite Hlen.
    + simpl. intros [Hin|Hin]; [done|].
      apply in_app_or in Hin as [Hin|Hin]; [|by apply Hno].
      assert (In (EvEmptyQueue r) (pop_events evs)) as Hin'
        by (apply filter_In; by split).
      by rewrite Hquiet in Hin'.
Qed.

(** Ten turns with a producer that pushes before every pop. *)
Lemma interest_iterator_can_go_on_forever_witness :
  exists w' evs,
    for_each 10 busy_env (_interest_queue_iterator (mkCache 0))
             (watch_body busy_env (mkCache 1)) empty_world
    = (Running, w')
    /\ pops w' = 10
    /\ length (pop_events evs) = 10.
Proof.
  assert (Hsettle : polls_settle busy_env).
  { intros a w. left.
    rewrite (poll_sub_queries_answer busy_env a w bob_info bob_players
               (mkRules []) eq_refl eq_refl eq_refl).
    by eexists. }
  destruct (interest_iterator_can_go_on_forever busy_env (mkCache 0)
              (watch_body busy_env (mkCache 1))
              (watch_body_quiet busy_env (mkCache 1) Hsettle)
              (fun n => ltac:(discriminate)) 10 empty_world)
    as (w' & evs & Hrun & _ & Hpops & Hlen & _).
  exists w', evs. split; [exact Hrun|]. split; [exact Hpops|exact Hlen].
Defined.

(** *** The [poll] subcommand *)

Lemma _poll_main_not_opened env report args w e :
  geoip_open env (poll_geoip args) = Throws e ->
  _poll_main env report args w
  = (Raise (Lib e), add_trace w [EvGeoipOpen (poll_geoip args)]).
Proof.
  intros Hopen. unfold _poll_main, Reader_open, bind, emit, lift.
  by rewrite Hopen.
Qed.

Lemma _poll_main_opened env report args w :
  geoip_open env (poll_geoip args) = Returns tt ->
  _poll_main env report args w
  = match poll env (poll_address args)
            (add_trace w [EvGeoipOpen (poll_geoip args)]) with
    | (Ok st, w1) =>
        match report st with
        | Returns _ => (Ok tt, w1)
        | Throws e => (Raise (Lib e), w1)
        end
    | (Raise (PollError _), w1) => (Raise (FatalError ""), w1)
    | (Raise e, w1) => (Raise e, w1)
    | (Running, w1) => (Running, w1)
    end.
Proof.
  intros Hopen.
  unfold _poll_main, Reader_open, bind, emit, lift, try_except_else.
  rewrite Hopen. cbn -[poll]. unfold add_trace.
  destruct (poll env (poll_address args) _) as [[st|e|] w1];
    [by destruct (report st) as [[]|]|by destruct e|done].
Qed.

(** X8. In the [poll] subcommand a [PollError] becomes
    [FatalError]: when a sub-query fails in one of the three ways,
    [_poll_main] raises [FatalError], which is the fatal exit status,
    and the report is not produced, whatever it would have been. *)
Theorem poll_main_PollError_is_fatal env report args w rq e k :
  geoip_open env (poll_geoip args) = Returns tt ->
  sub_query_failure env (poll_address args) = Some (rq, e) ->
  poll_failure_of e = Some k ->
  _poll_main env report args w
  = (Raise (FatalError ""),
     add_trace w (EvGeoipOpen (poll_geoip args)
                  :: queries_through (poll_address args) rq))
  /\ main_exit_status (_poll_main env report args w).1 = Some FATAL_ERROR
  /\ ExitStatus_value <$> main_exit_status (_poll_main env report args w).1
     = Some 1%Z.
Proof.
  intros Hopen Hfail Hk.
  rewrite (_poll_main_opened env report args w Hopen).
  rewrite (poll_sub_query_fails env (poll_address args) _ rq e Hfail).
  unfold query_server_raises. rewrite Hk.
  split; [|done]. f_equal. unfold add_trace; simpl. by rewrite <- app_assoc.
Qed.

(** A server that never answers. *)
Lemma poll_main_PollError_is_fatal_witness :
  _poll_main down_env (fun _ => Returns tt)
             (mkPollArgs bob_address "GeoLite2-City.mmdb") empty_world
  = (Raise (FatalError ""),
     mkWorld ∅ [] 0 0
       [EvGeoipOpen "GeoLite2-City.mmdb";
        EvQuery (mkServerQuerier ("192.0.2.7", 27015%Z) 5) GetInfo]).
Proof.
  exact (proj1 (poll_main_PollError_is_fatal down_env (fun _ => Returns tt)
                  (mkPollArgs bob_address "GeoLite2-City.mmdb") empty_world
                  GetInfo NoResponseError Unreachable eq_refl eq_refl eq_refl)).
Defined.

Lemma poll_events_quiet evs :
  Forall poll_event evs ->
  List.filter is_cache_event evs = [] /\ ~ In EvGeoipClose evs.
Proof.
  induction 1 as [|ev evs Hev _ [IH1 IH2]]; [split; [done|by intros []]|].
  split.
  - simpl. rewrite IH1. by destruct ev.
  - intros [->|Hin]; [exact Hev|by apply IH2].
Qed.

Lemma _poll_main_world env report args w :
  exists evs,
    (_poll_main env report args w).2
    = add_trace w (EvGeoipOpen (poll_geoip args) :: evs)
    /\ Forall poll_event evs.
Proof.
  destruct (geoip_open env (poll_geoip args)) as [[]|e] eqn:Hopen.
  - rewrite (_poll_main_opened env report args w Hopen).
    destruct (poll_world env (poll_address args)
                (add_trace w [EvGeoipOpen (poll_geoip args)]))
      as (evs & Hw & Hevs).
    exists evs. split; [|done].
    destruct (poll env (poll_address args) _) as [o w1]. simpl in Hw. subst w1.
    assert (Hadd : add_trace (add_trace w [EvGeoipOpen (poll_geoip args)]) evs
                   = add_trace w (EvGeoipOpen (poll_geoip args) :: evs)).
    { unfold add_trace; simpl. by rewrite <- app_assoc. }
    destruct o as [st|e|]; [destruct (report st)|destruct e|]; exact Hadd.
  - rewrite (_poll_main_not_opened env report args w e Hopen).
    exists []. by split.
Qed.

(** X9. The [poll] subcommand leaves the cache alone: whatever
    happens, the statuses and the interest queue are what they were
    and no cache connection has been opened; all it does is open the
    database and poll.  It never closes the database, and a database
    that does not open is not turned into [FatalError]: the
    exception leaves [_poll_main] as it came. *)
Theorem poll_main_leaves_cache_alone env report args w :
  statuses (_poll_main env report args w).2 = statuses w
  /\ interest_queue (_poll_main env report args w).2 = interest_queue w
  /\ next_session (_poll_main env report args w).2 = next_session w
  /\ (exists evs,
        trace (_poll_main env report args w).2
        = trace w ++ EvGeoipOpen (poll_geoip args) :: evs
        /\ Forall poll_event evs
        /\ List.filter is_cache_event evs = []
        /\ ~ In EvGeoipClose evs)
  /\ (forall e,
        geoip_open env (poll_geoip args) = Throws e ->
        (_poll_main env report args w).1 = Raise (Lib e)
        /\ main_exit_status (_poll_main env report args w).1
           = Some UNEXPECTED_ERROR).
Proof.
  destruct (_poll_main_world env report args w) as (evs & Hw & Hevs).
  rewrite Hw. simpl. do 3 (split; [done|]). split.
  - exists evs. split; [done|]. split; [done|]. by apply poll_events_quiet.
  - intros e Hopen.
    by rewrite (_poll_main_not_opened env report args w e Hopen).
Qed.

(** The subcommand on a database that is not one. *)
Lemma poll_main_leaves_cache_alone_witness :
  (_poll_main no_geoip_env (fun _ => Returns tt)
              (mkPollArgs bob_address "GeoLite2-City.mmdb") cached_world).1
  = Raise (Lib (InvalidDatabaseError "not a MaxMind DB file"))
  /\ main_exit_status
       (_poll_main no_geoip_env (fun _ => Returns tt)
                   (mkPollArgs bob_address "GeoLite2-City.mmdb")
                   cached_world).1
     = Some UNEXPECTED_ERROR.
Proof.
  destruct (poll_main_leaves_cache_alone no_geoip_env (fun _ => Returns tt)
              (mkPollArgs bob_address "GeoLite2-City.mmdb") cached_world)
    as (_ & _ & _ & _ & Hfail).
  exact (Hfail _ eq_refl).
Defined.

End poll_more_facts.

(** ** More facts about serverstf/websocket.py *)

Module websocket_more_facts.
Import cache websocket websocket_more websocket_facts.

#[local] Arguments Schema_dict : simpl never.
#[local] Arguments Schema_callable : simpl never.
#[local] Arguments getattr_handler : simpl never.
#[local] Arguments String.append : simpl never.

(** *** What one frame does to the session *)

(** A frame leaves one log entry, and an error on the queue or
    nothing. *)
Lemma read_turn_cases libs raw s :
  (exists entry, read_turn libs (Some raw) s = (Ok true, logged entry s))
  \/ (exists description,
        read_turn libs (Some raw) s
        = (Ok true,
           queued (error_frame libs description)
                  (logged (LogBadMessage description) s))).
Proof.
  destruct (_dispatch_session libs raw s) as [[e He]|[a Ha]].
  - destruct e as [l|m| |m|m|n];
      try (left; eexists; by apply (read_turn_unexpected libs raw s _ s He)).
    right. exists m. by apply read_turn_MessageError.
  - left. eexists. by apply read_turn_handled.
Qed.

(** A subscription whose entity [address] accepts is logged, and
    that is all. *)
Lemma _dispatch_subscribes libs raw entity s :
  subscribes libs raw entity ->
  _dispatch libs raw s = _handle_subscribe libs entity s.
Proof.
  intros (items & out & Hl & Hs & Ht & He).
  unfold _dispatch, bind, try_except_else, lift.
  rewrite Hl; simpl. rewrite Hs; simpl. unfold bind. rewrite Ht; simpl.
  by rewrite He.
Qed.

Lemma _handle_subscribe_cases libs entity s :
  _handle_subscribe libs entity s =
    match Schema_callable (address libs) entity with
    | Returns a => (Ok tt, logged (LogNewSubscription a) s)
    | Throws (Invalid m) => (Raise (MessageError ("Entity: " +:+ m)), s)
    | Throws e => (Raise (Lib e), s)
    end.
Proof.
  unfold _handle_subscribe, validate, bind, try_except_else, lift.
  destruct (Schema_callable (address libs) entity) as [a|e]; [done|].
  by destruct e.
Qed.

(** *** The read loop and the disconnect *)

Lemma read_turn_continues libs raw s :
  exists s', read_turn libs (Some raw) s = (Ok true, s').
Proof.
  destruct (read_turn_cases libs raw s) as [[entry H]|[d H]]; by eexists.
Qed.

Lemma read_turn_keeps_state libs raw s :
  exists s', read_turn libs (Some raw) s = (Ok true, s') /\ state s' = state s.
Proof.
  destruct (read_turn_cases libs raw s) as [[entry H]|[d H]]; by eexists.
Qed.

(** A writer's turn never ends [process] and never touches the
    connection state. *)
Lemma write_turn_keeps_state s :
  exists s',
    (forall libs ticks, process libs (Flush :: ticks) s = process libs ticks s')
    /\ state s' = state s.
Proof.
  destruct (_send_queue (client s)) as [|message q] eqn:Hqueue.
  - exists s. split; [|done]. intros libs ticks.
    rewrite process_Flush. unfold write_turn. by rewrite Hqueue.
  - eexists. split.
    + intros libs ticks. rewrite process_Flush. unfold write_turn.
      rewrite Hqueue. reflexivity.
    + done.
Qed.

(** X10. [_read] returns when [recv] returns [None] and at no other
    time: whatever frames come, well-formed or not, it has not
    returned and has not raised; at the first [None] it returns,
    and what comes behind is not read. *)
Theorem read_returns_at_disconnect libs :
  (forall frames s, (_read libs (Some <$> frames) s).1 = Running)
  /\ (forall frames rest s,
        _read libs ((Some <$> frames) ++ None :: rest) s
        = (Ok tt, (_read libs (Some <$> frames) s).2))
  /\ (forall rest s, _read libs (None :: rest) s = (Ok tt, s)).
Proof.
  split; [|split].
  - induction frames as [|raw frames IH]; intros s; [done|].
    rewrite fmap_cons, _read_cons.
    destruct (read_turn_continues libs raw s) as [s' ->]. apply IH.
  - induction frames as [|raw frames IH]; intros rest s; [done|].
    rewrite fmap_cons. simpl app. rewrite !_read_cons.
    destruct (read_turn_continues libs raw s) as [s' ->]. apply IH.
  - done.
Qed.

(** While the peer is connected [process] has not returned, and
    what it does later starts from where it is now. *)
Lemma process_while_live libs ticks s :
  Forall live ticks ->
  (process libs ticks s).1 = Running
  /\ state (process libs ticks s).2 = state s
  /\ forall rest,
       process libs (ticks ++ rest) s
       = process libs rest (process libs ticks s).2.
Proof.
  revert s. induction ticks as [|t ticks IH]; intros s Hlive.
  { split; [done|]. split; [done|]. by intros rest. }
  apply Forall_cons in Hlive as [Ht Hlive].
  destruct t as [[raw|]|]; [| by destruct Ht |].
  - destruct (read_turn_keeps_state libs raw s) as (s' & Hturn & Hstate).
    assert (Hstep : forall tk,
               process libs (Received (Some raw) :: tk) s = process libs tk s')
      by (intros tk; by rewrite process_Received, Hturn).
    rewrite Hstep, <- Hstate.
    destruct (IH s' Hlive) as (Hrun & Hst & Happ).
    split; [done|]. split; [done|]. intros rest.
    by rewrite <- app_comm_cons, Hstep.
  - destruct (write_turn_keeps_state s) as (s' & Hstep & Hstate).
    rewrite Hstep, <- Hstate.
    destruct (IH s' Hlive) as (Hrun & Hst & Happ).
    split; [done|]. split; [done|]. intros rest.
    by rewrite <- app_comm_cons, Hstep.
Qed.

(** *** When the transport refuses a write *)

Lemma process_on_transport_Received libs r steps s :
  process_on_transport libs (Turn (Received r) :: steps) s =
    match read_turn libs r s with
    | (Ok true, s') => process_on_transport libs steps s'
    | (_, s') => finish s'
    end.
Proof. reflexivity. Qed.

Lemma process_on_transport_Flush libs steps s :
  process_on_transport libs (Turn Flush :: steps) s =
    match write_turn s with
    | (Ok _, s') => process_on_transport libs steps s'
    | (Running, _) => process_on_transport libs steps s
    | (Raise e, s') => finish_after e s'
    end.
Proof. reflexivity. Qed.

Lemma process_on_transport_WriteRefused libs e steps s :
  process_on_transport libs (WriteRefused e :: steps) s =
    match _send_queue (client s) with
    | [] => process_on_transport libs steps s
    | message :: q => finish_after (Lib e) (set_send_queue q s)
    end.
Proof.
  cbn [process_on_transport]. unfold write_turn_refused.
  by destruct (_send_queue (client s)).
Qed.

(** On turns in which the transport takes every write, [process]
    over the transport is [process]. *)
Lemma process_on_transport_turns libs ticks :
  forall s, process_on_transport libs (Turn <$> ticks) s = process libs ticks s.
Proof.
  induction ticks as [|[r|] ticks IH]; intros s; [done| |]; rewrite fmap_cons.
  - rewrite process_on_transport_Received, process_Received.
    by destruct (read_turn libs r s) as [[[]|e|] s'].
  - rewrite process_on_transport_Flush, process_Flush. unfold write_turn.
    destruct (_send_queue (client s)) as [|message q]; simpl; apply IH.
Qed.

(** While the peer is connected and the transport takes every
    write, [process] over the transport has not returned: it is
    where [process] is. *)
Lemma process_on_transport_live libs ticks :
  forall s,
    Forall live ticks ->
    forall rest,
      process_on_transport libs ((Turn <$> ticks) ++ rest) s
      = process_on_transport libs rest (process libs ticks s).2.
Proof.
  induction ticks as [|t ticks IH]; intros s Hlive rest; [done|].
  apply Forall_cons in Hlive as [Ht Hlive].
  rewrite fmap_cons, <- app_comm_cons.
  destruct t as [[raw|]|]; [| by destruct Ht |].
  - destruct (read_turn_keeps_state libs raw s) as (s' & Hturn & _).
    rewrite process_on_transport_Received, process_Received, Hturn.
    by apply IH.
  - destruct (write_turn_keeps_state s) as (s' & Hstep & _).
    rewrite Hstep, process_on_transport_Flush. unfold write_turn in *.
    specialize (Hstep libs []). rewrite process_Flush in Hstep.
    unfold write_turn in Hstep.
    destruct (_send_queue (client s)) as [|message q]; simpl in *.
    + injection Hstep as <-. by apply IH.
    + injection Hstep as <-. by apply IH.
Qed.

(** X11. [process] ends when the peer disconnects or the transport
    refuses a write, and at no other time.  While every [recv]
    returns a frame and [send] takes every frame, [process] has not
    returned and the connection is in the state it was in.  At the
    disconnect it returns, and what is on the send queue is never
    written.  When [send] raises, [process] returns too, normally:
    the frame [send] was given is lost with the rest of the queue,
    and the exception is logged behind the end of the socket
    handler.  A writer that finds the queue empty does not reach
    [send], so nothing ends there. *)
Theorem process_ends_at_disconnect libs ticks s :
  Forall live ticks ->
  let s1 := (process libs ticks s).2 in
  process_on_transport libs (Turn <$> ticks) s = (Running, s1)
  /\ state s1 = state s
  /\ (forall rest,
        process_on_transport libs
          ((Turn <$> ticks) ++ Turn (Received None) :: rest) s
        = (Ok tt, closed_session s1 [LogSocketFinished]))
  /\ (forall e message q rest,
        _send_queue (client s1) = message :: q ->
        is_InvalidStateError (Lib e) = false ->
        process_on_transport libs ((Turn <$> ticks) ++ WriteRefused e :: rest) s
        = (Ok tt,
           closed_session (set_send_queue q s1)
             [LogSocketFinished; LogTaskError (Lib e)]))
  /\ (forall e rest,
        _send_queue (client s1) = [] ->
        process_on_transport libs ((Turn <$> ticks) ++ WriteRefused e :: rest) s
        = process_on_transport libs rest s1).
Proof.
  intros Hlive s1.
  destruct (process_while_live libs ticks s Hlive) as (_ & Hstate & _).
  split; [|split; [done|split; [|split]]].
  - rewrite <- (app_nil_r (Turn <$> ticks)).
    by rewrite process_on_transport_live.
  - intros rest. by rewrite process_on_transport_live.
  - intros e message q rest Hqueue Hclass.
    rewrite process_on_transport_live by done.
    rewrite process_on_transport_WriteRefused. fold s1. rewrite Hqueue.
    unfold finish_after, bind. simpl finish. rewrite Hclass.
    unfold closed_session, logging. simpl. by rewrite <- app_assoc.
  - intros e rest Hqueue.
    rewrite process_on_transport_live by done.
    rewrite process_on_transport_WriteRefused. fold s1. by rewrite Hqueue.
Qed.

(** A malformed frame, and a transport that has gone away when the
    writer hands it the error: the error is lost and [process]
    returns. *)
Lemma process_ends_at_disconnect_witness :
  process_on_transport plain_libs
    [Turn (Received (Some "nonsense"));
     WriteRefused (OtherError "ConnectionClosed");
     Turn (Received (Some "nonsense"))]
    first_session
  = (Ok tt,
     mkSession
       (mkClient (mkWebSocket 0) (mkCache 0) [] [])
       []
       [LogBadMessage "JSON: Expecting value: line 1 column 1 (char 0)";
        LogSocketFinished;
        LogTaskError (Lib (OtherError "ConnectionClosed"))]
       CLOSED).
Proof.
  destruct (process_ends_at_disconnect plain_libs [Received (Some "nonsense")]
              first_session)
    as (_ & _ & _ & Hrefused & _).
  - repeat constructor. discriminate.
  - exact (Hrefused (OtherError "ConnectionClosed") _ []
             [Turn (Received (Some "nonsense"))] eq_refl eq_refl).
Defined.

(** *** Subscriptions *)

(** X12. A subscription that [address] accepts is logged and that is
    all: nothing is put on the send queue, nothing is written, the
    subscriptions the client holds are what they were, and [_read]
    goes on. *)
Theorem subscription_is_only_logged libs raw entity a s :
  subscribes libs raw entity ->
  address libs entity = Returns a ->
  read_turn libs (Some raw) s = (Ok true, logged (LogNewSubscription a) s)
  /\ _subscriptions (client (read_turn libs (Some raw) s).2)
     = _subscriptions (client s)
  /\ pipeline (read_turn libs (Some raw) s).2 = pipeline s.
Proof.
  intros Hsub Haddr.
  assert (Hturn : read_turn libs (Some raw) s
                  = (Ok true, logged (LogNewSubscription a) s)).
  { apply read_turn_handled.
    rewrite (_dispatch_subscribes libs raw entity s Hsub).
    rewrite _handle_subscribe_cases. unfold Schema_callable.
    by rewrite Haddr. }
  by rewrite Hturn.
Qed.

(** Bob's server, subscribed to on a fresh connection. *)
Lemma subscription_is_only_logged_witness :
  read_turn plain_libs (Some subscribe_bob) first_session
  = (Ok true,
     logged (LogNewSubscription (mkAddress "192.0.2.7" 27015)) first_session).
Proof.
  refine (proj1 (subscription_is_only_logged plain_libs subscribe_bob
                   bob_entity (mkAddress "192.0.2.7" 27015) first_session
                   _ eq_refl)).
  exists [("type", PStr "subscribe"); ("entity", bob_entity)],
         [("type", PStr "subscribe"); ("entity", bob_entity)].
  by repeat split.
Defined.

(** *** What leaves over a connection *)

Lemma read_turn_pipeline libs r s :
  _subscriptions (client (read_turn libs r s).2) = _subscriptions (client s)
  /\ (pipeline (read_turn libs r s).2 = pipeline s
      \/ exists raw description,
           r = Some raw
           /\ pipeline (read_turn libs r s).2
              = pipeline s ++ [error_frame libs description]).
Proof.
  destruct r as [raw|]; [|by split; [|left]].
  destruct (read_turn_cases libs raw s) as [[entry ->]|[d ->]].
  - by split; [|left].
  - split; [done|]. right. exists raw, d. split; [done|].
    unfold pipeline. simpl. by rewrite app_assoc.
Qed.

Lemma write_turn_keeps s :
  _subscriptions (client (write_turn s).2) = _subscriptions (client s)
  /\ pipeline (write_turn s).2 = pipeline s.
Proof.
  unfold write_turn, pipeline.
  destruct (_send_queue (client s)) as [|message q] eqn:Hqueue; simpl.
  - by rewrite Hqueue.
  - by rewrite <- app_assoc.
Qed.

Lemma finish_keeps s :
  _subscriptions (client (finish s).2) = _subscriptions (client s)
  /\ pipeline (finish s).2 = pipeline s.
Proof. done. Qed.

(** X13. Whatever the peer sends and however the event loop runs
    the two tasks, everything [process] writes or queues on top of
    what was there is an error envelope, there is at most one per
    received frame, and the subscriptions of the client are never
    changed: no status and no acknowledgement ever leaves. *)
Theorem process_sends_only_errors libs ticks s :
  exists errors,
    pipeline (process libs ticks s).2 = pipeline s ++ errors
    /\ Forall (is_error_frame libs) errors
    /\ length errors <= received ticks
    /\ _subscriptions (client (process libs ticks s).2)
       = _subscriptions (client s).
Proof.
  revert s. induction ticks as [|[r|] ticks IH]; intros s.
  - exists []. simpl. by rewrite app_nil_r.
  - rewrite process_Received.
    destruct (read_turn_pipeline libs r s) as [Hsubs Hpipe].
    destruct (read_turn libs r s) as [o s'] eqn:Hturn. simpl in Hsubs, Hpipe.
    assert (Hhere : exists errors,
               pipeline s' = pipeline s ++ errors
               /\ Forall (is_error_frame libs) errors
               /\ length errors <= received [Received r]).
    { destruct Hpipe as [Hpipe|(raw & d & -> & Hpipe)].
      - exists []. rewrite app_nil_r. repeat split; [done|done|simpl; lia].
      - exists [error_frame libs d]. split; [done|]. split; [|done].
        constructor; [by exists d|done]. }
    destruct Hhere as (errors & Hp & Herr & Hlen).
    assert (Hrec : received [Received r] + received ticks
                   = received (Received r :: ticks)) by by destruct r.
    assert (Hstop : exists errors0,
               pipeline (finish s').2 = pipeline s ++ errors0
               /\ Forall (is_error_frame libs) errors0
               /\ length errors0 <= received (Received r :: ticks)
               /\ _subscriptions (client (finish s').2)
                  = _subscriptions (client s)).
    { exists errors. destruct (finish_keeps s') as [Hs' Hp'].
      rewrite Hp', Hs'. repeat split; [done|done|lia|done]. }
    destruct o as [[]| |]; try exact Hstop.
    destruct (IH s') as (errors' & Hp' & Herr' & Hlen' & Hsubs').
    exists (errors ++ errors').
    rewrite Hp', Hp, Hsubs', length_app, <- app_assoc.
    split; [done|]. split; [by apply Forall_app|]. split; [lia|done].
  - rewrite process_Flush.
    destruct (write_turn_keeps s) as [Hsubs Hpipe].
    destruct (write_turn s) as [o s'] eqn:Hturn. simpl in Hsubs, Hpipe.
    destruct o as [[]|e|].
    + destruct (IH s') as (errors & Hp & Herr & Hlen & Hsubs').
      exists errors. rewrite Hp, Hpipe, Hsubs'. by repeat split.
    + exists []. destruct (finish_keeps s') as [Hs' Hp'].
      rewrite Hp', Hs', app_nil_r. repeat split; [done|done|simpl; lia|done].
    + by apply IH.
Qed.

(** *** The arguments of [Address] *)

Lemma validate_items_address items :
  forall out,
    address_args out ->
    (exists m, validate_items address_schema items out = Throws (Invalid m))
    \/ (exists out',
          validate_items address_schema items out = Returns out'
          /\ address_args out'
          /\ (forall k, dict_get out k <> None -> dict_get out' k <> None)
          /\ (forall k, dict_get items k <> None -> dict_get out' k <> None)).
Proof.
  induction items as [|[k v] items IH]; intros out Hout.
  - right. exists out. by repeat split.
  - cbn [validate_items].
    destruct (schema_lookup address_schema k) as [check|] eqn:Hschema;
      [|left; by eexists].
    assert (Hkey : (k = "ip" /\ check = v_str) \/ (k = "port" /\ check = v_int)).
    { unfold address_schema in Hschema. cbn [schema_lookup] in Hschema.
      destruct (String.eqb k "ip") eqn:Hip.
      - apply String.eqb_eq in Hip. left. split; congruence.
      - destruct (String.eqb k "port") eqn:Hport; [|done].
        apply String.eqb_eq in Hport. right. split; congruence. }
    assert (Hset : forall v',
               ((k = "ip" /\ is_str v') \/ (k = "port" /\ is_int v')) ->
               address_args (dict_set out k v')
               /\ dict_get (dict_set out k v') k <> None
               /\ (forall k', dict_get out k' <> None ->
                              dict_get (dict_set out k v') k' <> None)).
    { intros v' [[-> Hv]|[-> Hv]]; destruct Hout; simpl;
        (split; [by constructor|]); (split; [done|]);
        intros k'; simpl;
        repeat (destruct (String.eqb k' _)); done. }
    assert (Hgo : forall v',
               ((k = "ip" /\ is_str v') \/ (k = "port" /\ is_int v')) ->
               (exists m, validate_items address_schema items (dict_set out k v')
                          = Throws (Invalid m))
               \/ (exists out',
                     validate_items address_schema items (dict_set out k v')
                     = Returns out'
                     /\ address_args out'
                     /\ (forall k0, dict_get out k0 <> None ->
                                    dict_get out' k0 <> None)
                     /\ (forall k0, dict_get ((k, v) :: items) k0 <> None ->
                                    dict_get out' k0 <> None))).
    { intros v' Hv. destruct (Hset v' Hv) as (Hargs & Hk & Hkeep).
      destruct (IH _ Hargs) as [Hthrow|(out' & Hret & Hargs' & Hold & Hnew)];
        [by left|].
      right. exists out'. split; [done|]. split; [done|]. split.
      - intros k0 Hk0. by apply Hold, Hkeep.
      - intros k0. cbn [dict_get].
        destruct (String.eqb k0 k) eqn:Hk0; [|by apply Hnew].
        apply String.eqb_eq in Hk0 as ->. intros _. by apply Hold. }
    destruct Hkey as [[-> ->]|[-> ->]].
    + destruct v; try (left; by eexists).
      apply Hgo. left. split; [done|]. by eexists.
    + destruct v; try (left; by eexists);
        apply Hgo; right; (split; [done|]).
      * right. by eexists.
      * left. by eexists.
Qed.

Lemma first_missing_none required items k :
  first_missing required items = None ->
  In k required -> dict_get items k <> None.
Proof.
  induction required as [|k' required IH]; [done|].
  cbn [first_missing].
  destruct (dict_get items k') eqn:Hk'; [|done].
  intros Hmiss [->|Hin]; [by rewrite Hk'|by apply IH].
Qed.

(** X14. Whatever value [address] is given, it either fails with
    [voluptuous.Invalid] or calls [Address] with exactly two
    arguments, one a string and one an integer, in one order or the
    other; what [address] returns or raises then is what [Address]
    does.  [Address] is never called with another number of
    arguments. *)
Theorem address_calls_Address_with_two_arguments libs value :
  (exists m, address libs value = Throws (Invalid m))
  \/ (exists x y,
        address libs value = Address_new libs x y
        /\ ((is_str x /\ is_int y) \/ (is_int x /\ is_str y))).
Proof.
  unfold address, Schema_dict.
  destruct value as [| | | | | |items]; try (left; by eexists).
  destruct (validate_items_address items [] args_none)
    as [[m ->]|(out & -> & Hargs & _ & Hall)]; [left; by eexists|].
  destruct (first_missing (List.map fst address_schema) items) as [k|] eqn:Hmiss;
    [left; by eexists|].
  right.
  pose proof (Hall "ip" (first_missing_none _ _ "ip" Hmiss
                           ltac:(simpl; tauto))) as Hip.
  pose proof (Hall "port" (first_missing_none _ _ "port" Hmiss
                             ltac:(simpl; tauto))) as Hport.
  destruct Hargs as [|x Hx|y Hy|x y Hx Hy|x y Hx Hy]; try done.
  - exists x, y. split; [done|]. by left.
  - exists y, x. split; [done|]. by right.
Qed.

(** *** When [Address] fails *)

(** X15. When [address] fails on the entity of a subscription, what
    the peer hears depends on the class of the exception: a
    [ValueError] of the [Address] constructor reaches the peer as
    the error [Entity: not a valid value], whatever its own message
    was; a [voluptuous.Invalid] reaches it with its message; an
    exception of any other class is logged with the frame and the
    peer hears nothing.  In each case [_read] goes on. *)
Theorem entity_failure_by_class libs raw entity e s :
  subscribes libs raw entity ->
  address libs entity = Throws e ->
  read_turn libs (Some raw) s = (Ok true, after_entity_failure libs raw e s).
Proof.
  intros Hsub Haddr.
  pose proof (_dispatch_subscribes libs raw entity s Hsub) as Hdispatch.
  rewrite _handle_subscribe_cases in Hdispatch.
  unfold Schema_callable in Hdispatch. rewrite Haddr in Hdispatch.
  destruct e; simpl in Hdispatch;
    first [ by apply read_turn_MessageError
          | by apply (read_turn_unexpected libs raw s _ s Hdispatch) ].
Qed.

(** The port before the address, and a constructor that raises
    [TypeError] on it: the peer gets no answer. *)
Lemma entity_failure_by_class_witness :
  read_turn typed_libs (Some subscribe_port_first) first_session
  = (Ok true,
     logged (LogHandlingError subscribe_port_first
               (Lib (TypeError "expected str and int")))
            first_session).
Proof.
  refine (entity_failure_by_class typed_libs subscribe_port_first
            bob_entity_port_first (TypeError "expected str and int")
            first_session _ eq_refl).
  exists [("type", PStr "subscribe"); ("entity", bob_entity_port_first)],
         [("type", PStr "subscribe"); ("entity", bob_entity_port_first)].
  by repeat split.
Defined.

(** *** A connection from accept to close *)



End websocket_more_facts.
